(** * lockr: path resolution and the SSM Parameter Store client

    A shallow embedding of [cmd.buildPath], [cmd.runWrite] and of the
    methods of [internal/ssm.Client] ([WriteSecret], [SetTags],
    [ReadSecret], [ListSecrets], [DeleteSecret], [Exists]).

    Go strings are byte strings: they are [string] here (a list of 8-bit
    [ascii]).  Go's [map[string]string] is a [gmap string string].  A call
    on the AWS SDK client is an effect: the remote store is a state machine
    given by its handlers, and every call is appended to a log, so that the
    order and the number of remote calls can be stated. *)

From Stdlib Require Import ZArith Ascii String List.
From stdpp Require Import base option strings gmap list.

Local Open Scope string_scope.
Local Open Scope list_scope.

(** ** The part of Go's [strings] package the program uses *)

Module strings.

(** [strings.HasPrefix(s, prefix)] *)
Fixpoint HasPrefix (s prefix : string) {struct prefix} : bool :=
  match prefix with
  | EmptyString => true
  | String p prefix' =>
      match s with
      | EmptyString => false
      | String c s' => if Ascii.eqb c p then HasPrefix s' prefix' else false
      end
  end.

(** [strings.HasSuffix(s, suffix)], through the reversed strings. *)
Definition HasSuffix (s suffix : string) : bool :=
  HasPrefix (String.rev s) (String.rev suffix).

(** Membership of a byte in a cutset. *)
Fixpoint inCutset (c : ascii) (cutset : string) : bool :=
  match cutset with
  | EmptyString => false
  | String d cutset' => if Ascii.eqb c d then true else inCutset c cutset'
  end.

(** [strings.TrimLeft(s, cutset)] *)
Fixpoint TrimLeft (s cutset : string) : string :=
  match s with
  | EmptyString => EmptyString
  | String c s' => if inCutset c cutset then TrimLeft s' cutset else s
  end.

(** [strings.TrimRight(s, cutset)] *)
Fixpoint TrimRight (s cutset : string) : string :=
  match s with
  | EmptyString => EmptyString
  | String c s' =>
      match TrimRight s' cutset with
      | EmptyString => if inCutset c cutset then EmptyString else String c EmptyString
      | r => String c r
      end
  end.

(** [strings.Trim(s, cutset)]: all leading and trailing bytes of the
    cutset removed. *)
Definition Trim (s cutset : string) : string :=
  TrimRight (TrimLeft s cutset) cutset.

(** [strings.Join(elems, sep)] *)
Fixpoint Join (elems : list string) (sep : string) : string :=
  match elems with
  | [] => EmptyString
  | [e] => e
  | e :: elems' => e +:+ sep +:+ Join elems' sep
  end.

(** [strings.TrimSuffix(s, suffix)] *)
Definition TrimSuffix (s suffix : string) : string :=
  if HasSuffix s suffix
  then String.substring 0 (String.length s - String.length suffix) s
  else s.

(** [strings.Split(s, sep)] for a separator of one byte: the fields
    between the separators, empty fields included. *)
Fixpoint SplitByte (s : string) (sep : ascii) : list string :=
  match s with
  | EmptyString => [EmptyString]
  | String c s' =>
      if Ascii.eqb c sep then EmptyString :: SplitByte s' sep
      else match SplitByte s' sep with
           | [] => [String c EmptyString]
           | f :: fs => String c f :: fs
           end
  end.

(** [strings.SplitN(s, sep, 2)] for a separator of one byte: [s] cut at
    its first separator, or [s] alone when it has none. *)
Fixpoint SplitN2 (s : string) (sep : ascii) : list string :=
  match s with
  | EmptyString => [EmptyString]
  | String c s' =>
      if Ascii.eqb c sep then [EmptyString; s']
      else match SplitN2 s' sep with
           | f :: fs => String c f :: fs
           | [] => [String c EmptyString]
           end
  end.

End strings.

(** ** Configuration ([internal/config.Config]) *)

Record Config := mkConfig {
  Prefix : string;
  Env : string;
  Output : string;
  KMSKey : string;
  Region : string
}.

Definition DefaultConfig : Config :=
  {| Prefix := ""; Env := ""; Output := "text"; KMSKey := "alias/aws/ssm"; Region := "" |}.

(** ** Path resolution ([cmd.buildPath])

    The Go function reads the package variable [cfg]; it is an argument
    here. *)

Definition buildPath (cfg : Config) (input : string) : string :=
  if strings.HasPrefix input "/" then input
  else
    let parts := [] in
    let parts :=
      if negb (String.eqb (Prefix cfg) "")
      then parts ++ [strings.Trim (Prefix cfg) "/"]
      else parts in
    let parts :=
      if negb (String.eqb (Env cfg) "")
      then parts ++ [Env cfg]
      else parts in
    let parts := parts ++ [input] in
    "/" +:+ strings.Join parts "/".

(** The spec's [resolve(input, prefix, env)]. *)
Definition resolve (input prefix env : string) : string :=
  buildPath {| Prefix := prefix; Env := env; Output := "text";
               KMSKey := "alias/aws/ssm"; Region := "" |} input.

(** The resolver as the specification words it: the trimmed prefix (left
    out when it is empty), then the environment (left out when it is
    empty), then the input, joined with [/] behind one leading [/]. *)
Definition resolve_spec (input prefix env : string) : string :=
  if strings.HasPrefix input "/" then input
  else
    let trimmed := strings.Trim prefix "/" in
    let segs :=
      (if String.eqb trimmed "" then [] else [trimmed])
      ++ (if String.eqb env "" then [] else [env])
      ++ [input] in
    "/" +:+ strings.Join segs "/".

(** The segments of an absolute path: the fields between the slashes that
    follow the leading one. *)
Definition segments (p : string) : list string :=
  match p with
  | String _ rest => strings.SplitByte rest "/"
  | EmptyString => []
  end.

(** A list of segments none of which is empty. *)
Definition all_nonempty (segs : list string) : bool :=
  forallb (fun s => negb (String.eqb s "")) segs.

(** A path has no empty segment. *)
Definition no_empty_segment (p : string) : bool :=
  all_nonempty (segments p).

(** A string all of whose slash-separated fields are non-empty: it has
    no leading, trailing or doubled slash and is not empty. *)
Definition fields_nonempty (s : string) : bool :=
  all_nonempty (strings.SplitByte s "/").

(** ** Errors

    A Go [error] value.  The SDK reports a failed operation as a chain of
    wrapped errors ([smithy.OperationError] around the modelled exception),
    and the commands wrap again with [fmt.Errorf("...: %w", err)].  A nil
    error is [None] of [option error]. *)

Inductive error : Type :=
  | ParameterAlreadyExists (msg : string)
  | ParameterNotFound (msg : string)
  | ErrorString (msg : string)
  | Wrapped (msg : string) (cause : error).

(** [errors.As(err, &pae)] with [pae : *types.ParameterAlreadyExists]:
    some error of the chain has that type. *)
Fixpoint As_ParameterAlreadyExists (err : error) : bool :=
  match err with
  | ParameterAlreadyExists _ => true
  | Wrapped _ cause => As_ParameterAlreadyExists cause
  | _ => false
  end.

(** [errors.As(err, &pnf)] with [pnf : *types.ParameterNotFound]. *)
Fixpoint As_ParameterNotFound (err : error) : bool :=
  match err with
  | ParameterNotFound _ => true
  | Wrapped _ cause => As_ParameterNotFound cause
  | _ => false
  end.

(** ** The data of [internal/ssm] and of the SDK calls it makes *)

Module aws.
(** [aws.String(s)]: a pointer to [s]. *)
Definition String (s : string) : option string := Some s.
(** [aws.Bool(b)] *)
Definition Bool (b : bool) : option bool := Some b.
(** [aws.ToString(p)]: the pointed string, the empty string for nil. *)
Definition ToString (p : option string) : string := default "" p.
End aws.

(** [types.ParameterType] is a Go string type. *)
Definition ParameterType := string.
Definition ParameterTypeSecureString : ParameterType := "SecureString".

(** [types.ResourceTypeForTagging] is a Go string type too. *)
Definition ResourceTypeForTaggingParameter : string := "Parameter".

Record Tag := mkTag {
  Key : option string;
  TagValue : option string
}.

Record PutParameterInput := mkPutParameterInput {
  put_Name : option string;
  put_Value : option string;
  put_Type : ParameterType;
  put_KeyId : option string;
  put_Overwrite : option bool;
  put_Tags : list Tag
}.

Record AddTagsToResourceInput := mkAddTagsToResourceInput {
  add_ResourceType : string;
  add_ResourceId : option string;
  add_Tags : list Tag
}.

Record GetParameterInput := mkGetParameterInput {
  get_Name : option string;
  get_WithDecryption : option bool
}.

Record ListTagsForResourceInput := mkListTagsForResourceInput {
  lt_ResourceType : string;
  lt_ResourceId : option string
}.

Record GetParametersByPathInput := mkGetParametersByPathInput {
  gp_Path : option string;
  gp_Recursive : option bool;
  gp_WithDecryption : option bool;
  gp_NextToken : option string
}.

Record DeleteParameterInput := mkDeleteParameterInput {
  del_Name : option string
}.

(** [types.Parameter] (the bare name is a reserved word here); a time is a
    number of seconds. *)
Record SSMParameter := mkSSMParameter {
  par_Name : option string;
  par_Value : option string;
  par_Type : ParameterType;
  par_Version : Z;
  par_LastModifiedDate : option Z
}.

(** [ssm.GetParameterOutput]; a successful call is taken to carry the
    parameter (the Go code dereferences [result.Parameter] unchecked). *)
Record GetParameterOutput := mkGetParameterOutput {
  gpo_Parameter : SSMParameter
}.

Record ListTagsForResourceOutput := mkListTagsForResourceOutput {
  TagList : list Tag
}.

Record GetParametersByPathOutput := mkGetParametersByPathOutput {
  gpp_Parameters : list SSMParameter;
  NextToken : option string
}.

(** [ssm.Secret] *)
Record Secret := mkSecret {
  sec_Name : string;
  sec_Value : string;
  sec_Type : string;
  sec_Version : Z;
  sec_Description : string;
  sec_Tags : gmap string string
}.

(** [ssm.SecretMetadata] *)
Record SecretMetadata := mkSecretMetadata {
  meta_Name : string;
  meta_Type : string;
  meta_Version : Z;
  meta_LastModified : option Z;
  meta_Description : string;
  meta_Tier : string
}.

(** ** The remote store

    One remote call, as the store receives it. *)
Inductive Call : Type :=
  | CallPutParameter (input : PutParameterInput)
  | CallAddTagsToResource (input : AddTagsToResourceInput)
  | CallGetParameter (input : GetParameterInput)
  | CallListTagsForResource (input : ListTagsForResourceInput)
  | CallGetParametersByPath (input : GetParametersByPathInput)
  | CallDeleteParameter (input : DeleteParameterInput).

(** The store (or a test double of it): a state and, per operation, what
    it answers and how its state changes.  An SDK call returns an output or
    an error, never both. *)
Record SSMAPI (St : Type) := mkSSMAPI {
  PutParameter : PutParameterInput -> St -> (unit + error) * St;
  AddTagsToResource : AddTagsToResourceInput -> St -> (unit + error) * St;
  GetParameter : GetParameterInput -> St -> (GetParameterOutput + error) * St;
  ListTagsForResource :
    ListTagsForResourceInput -> St -> (ListTagsForResourceOutput + error) * St;
  GetParametersByPath :
    GetParametersByPathInput -> St -> (GetParametersByPathOutput + error) * St;
  DeleteParameter : DeleteParameterInput -> St -> (unit + error) * St
}.

Arguments PutParameter {St}.
Arguments AddTagsToResource {St}.
Arguments GetParameter {St}.
Arguments ListTagsForResource {St}.
Arguments GetParametersByPath {St}.
Arguments DeleteParameter {St}.

(** The world a client method runs in: the store's state and the log of
    the calls issued so far, oldest first. *)
Record World (St : Type) := mkWorld {
  store : St;
  calls : list Call
}.

Arguments mkWorld {St}.
Arguments store {St}.
Arguments calls {St}.

(** Computations that call the store. *)
Definition M (St A : Type) : Type := World St -> A * World St.

Definition ret {St A} (a : A) : M St A := fun w => (a, w).

Definition bind {St A B} (c : M St A) (k : A -> M St B) : M St B :=
  fun w => let (a, w') := c w in k a w'.

Notation "'let*' x ':=' c 'in' k" := (bind c (fun x => k))
  (at level 10, x name, c at level 100, k at level 200, only parsing).

(** Issue one call: log it, let the store answer. *)
Definition invoke {St I O} (mk : I -> Call) (h : I -> St -> (O + error) * St)
    (input : I) : M St (O + error) :=
  fun w =>
    let (r, s') := h input (store w) in
    (r, {| store := s'; calls := calls w ++ [mk input] |}).

(** A fresh world around a store state: nothing called yet. *)
Definition fresh {St} (s : St) : World St := {| store := s; calls := [] |}.

(** The world after one more call [c] that left the store in [s']. *)
Definition logged {St} (w : World St) (c : Call) (s' : St) : World St :=
  {| store := s'; calls := calls w ++ [c] |}.

(** The [err] of an SDK call whose output is dropped ([_, err := ...]). *)
Definition errorOf {A} (r : A + error) : option error :=
  match r with
  | inl _ => None
  | inr err => Some err
  end.

(** ** The client ([internal/ssm.Client]) *)

Section Client.

Context {St : Type} (api : SSMAPI St).

(** The input of the tag-set call of [SetTags].  Go ranges over the map
    in an unspecified order; [map_to_list] fixes one. *)
Definition setTagsInput (path : string) (tags : gmap string string)
    : AddTagsToResourceInput :=
  let ssmTags :=
    (fun kv : string * string =>
       {| Key := aws.String kv.1; TagValue := aws.String kv.2 |})
      <$> map_to_list tags in
  {| add_ResourceType := ResourceTypeForTaggingParameter;
     add_ResourceId := aws.String path;
     add_Tags := ssmTags |}.

(** [c.SetTags(path, tags)] *)
Definition SetTags (path : string) (tags : gmap string string)
    : M St (option error) :=
  let* r := invoke CallAddTagsToResource (AddTagsToResource api)
              (setTagsInput path tags) in
  ret (errorOf r).

(** The [PutParameterInput] that [WriteSecret] builds before it looks at
    the tags: no [Overwrite], and never any [Tags]. *)
Definition writeInput (path value kmsKey : string) : PutParameterInput :=
  let input :=
    {| put_Name := aws.String path;
       put_Value := aws.String value;
       put_Type := ParameterTypeSecureString;
       put_KeyId := None;
       put_Overwrite := None;
       put_Tags := [] |} in
  if negb (String.eqb kmsKey "")
  then {| put_Name := put_Name input; put_Value := put_Value input;
          put_Type := put_Type input; put_KeyId := aws.String kmsKey;
          put_Overwrite := put_Overwrite input; put_Tags := put_Tags input |}
  else input.

(** [input.Overwrite = aws.Bool(b)] *)
Definition setOverwrite (input : PutParameterInput) (b : bool)
    : PutParameterInput :=
  {| put_Name := put_Name input; put_Value := put_Value input;
     put_Type := put_Type input; put_KeyId := put_KeyId input;
     put_Overwrite := aws.Bool b; put_Tags := put_Tags input |}.

(** [c.WriteSecret(path, value, tags, overwrite, kmsKey)] *)
Definition WriteSecret (path value : string) (tags : gmap string string)
    (overwrite : bool) (kmsKey : string) : M St (option error) :=
  let input := writeInput path value kmsKey in
  if decide (0 < size tags) then
    let* r := invoke CallPutParameter (PutParameter api) input in
    match r with
    | inr err =>
        if As_ParameterAlreadyExists err && overwrite then
          let input := setOverwrite input true in
          let* r2 := invoke CallPutParameter (PutParameter api) input in
          match r2 with
          | inr err2 => ret (Some err2)
          | inl _ => SetTags path tags
          end
        else ret (Some err)
    | inl _ => SetTags path tags
    end
  else
    let input := setOverwrite input overwrite in
    let* r := invoke CallPutParameter (PutParameter api) input in
    ret (errorOf r).

(** The loop of [ReadSecret] over [tagsResult.TagList]: later tags
    overwrite earlier ones with the same key. *)
Definition collectTags (tagList : list Tag) : gmap string string :=
  foldl (fun m tag => <[aws.ToString (Key tag) := aws.ToString (TagValue tag)]> m)
        ∅ tagList.

(** [c.ReadSecret(path)]: the pair [(secret, err)] that Go returns, nil
    being [None]. *)
Definition ReadSecret (path : string) : M St (option Secret * option error) :=
  let* result := invoke CallGetParameter (GetParameter api)
                   {| get_Name := aws.String path;
                      get_WithDecryption := aws.Bool true |} in
  match result with
  | inr err => ret (None, Some err)
  | inl result =>
      let p := gpo_Parameter result in
      let secret :=
        {| sec_Name := aws.ToString (par_Name p);
           sec_Value := aws.ToString (par_Value p);
           sec_Type := par_Type p;
           sec_Version := par_Version p;
           sec_Description := "";
           sec_Tags := ∅ |} in
      let* tagsResult := invoke CallListTagsForResource (ListTagsForResource api)
                           {| lt_ResourceType := ResourceTypeForTaggingParameter;
                              lt_ResourceId := aws.String path |} in
      match tagsResult with
      | inl tagsResult =>
          if decide (0 < length (TagList tagsResult)) then
            ret (Some {| sec_Name := sec_Name secret;
                         sec_Value := sec_Value secret;
                         sec_Type := sec_Type secret;
                         sec_Version := sec_Version secret;
                         sec_Description := sec_Description secret;
                         sec_Tags := collectTags (TagList tagsResult) |},
                 None)
          else ret (Some secret, None)
      | inr _ => ret (Some secret, None)
      end
  end.

(** The SDK's [GetParametersByPathPaginator], with its default options
    (no stop on a repeated token). *)
Record Paginator := mkPaginator {
  params : GetParametersByPathInput;
  nextToken : option string;
  firstPage : bool
}.

(** [ssm.NewGetParametersByPathPaginator(c.ssm, input)] *)
Definition NewGetParametersByPathPaginator (input : GetParametersByPathInput)
    : Paginator :=
  {| params := input; nextToken := gp_NextToken input; firstPage := true |}.

(** [paginator.HasMorePages()] *)
Definition HasMorePages (p : Paginator) : bool :=
  firstPage p ||
  match nextToken p with
  | Some t => negb (String.eqb t "")
  | None => false
  end.

(** [paginator.NextPage(ctx)], called when [HasMorePages] holds: the
    page or the error, and the paginator after the call. *)
Definition NextPage (p : Paginator)
    : M St ((GetParametersByPathOutput + error) * Paginator) :=
  let req :=
    {| gp_Path := gp_Path (params p);
       gp_Recursive := gp_Recursive (params p);
       gp_WithDecryption := gp_WithDecryption (params p);
       gp_NextToken := nextToken p |} in
  let* r := invoke CallGetParametersByPath (GetParametersByPath api) req in
  match r with
  | inr err => ret (inr err, p)
  | inl result =>
      ret (inl result,
           {| params := params p; nextToken := NextToken result;
              firstPage := false |})
  end.

(** The body of the inner loop of [ListSecrets]: one listing entry. *)
Definition toMetadata (p : SSMParameter) : SecretMetadata :=
  let meta :=
    {| meta_Name := aws.ToString (par_Name p);
       meta_Type := par_Type p;
       meta_Version := par_Version p;
       meta_LastModified := None;
       meta_Description := "";
       meta_Tier := "" |} in
  match par_LastModifiedDate p with
  | Some t =>
      {| meta_Name := meta_Name meta; meta_Type := meta_Type meta;
         meta_Version := meta_Version meta; meta_LastModified := Some t;
         meta_Description := meta_Description meta; meta_Tier := meta_Tier meta |}
  | None => meta
  end.

(** The [for paginator.HasMorePages()] loop of [ListSecrets].  The Go
    loop runs for as long as the store hands out tokens; [fuel] bounds
    the number of page fetches, and [None] is "fuel exhausted". *)
Fixpoint listLoop (fuel : nat) (paginator : Paginator)
    (secrets : list SecretMetadata)
    : M St (option (list SecretMetadata * option error)) :=
  if HasMorePages paginator then
    match fuel with
    | O => ret None
    | S fuel' =>
        let* r := NextPage paginator in
        match r with
        | (inr err, _) => ret (Some ([], Some err))
        | (inl page, paginator') =>
            listLoop fuel' paginator'
                     (secrets ++ (toMetadata <$> gpp_Parameters page))
        end
    end
  else ret (Some (secrets, None)).

(** [c.ListSecrets(path, recursive)] *)
Definition ListSecrets (fuel : nat) (path : string) (recursive : bool)
    : M St (option (list SecretMetadata * option error)) :=
  let input :=
    {| gp_Path := aws.String path;
       gp_Recursive := aws.Bool recursive;
       gp_WithDecryption := aws.Bool false;
       gp_NextToken := None |} in
  listLoop fuel (NewGetParametersByPathPaginator input) [].

(** [c.DeleteSecret(path)] *)
Definition DeleteSecret (path : string) : M St (option error) :=
  let* r := invoke CallDeleteParameter (DeleteParameter api)
              {| del_Name := aws.String path |} in
  ret (errorOf r).

(** [c.Exists(path)]: the pair [(bool, err)] that Go returns. *)
Definition Exists (path : string) : M St (bool * option error) :=
  let* r := invoke CallGetParameter (GetParameter api)
              {| get_Name := aws.String path;
                 get_WithDecryption := aws.Bool false |} in
  match r with
  | inr err =>
      if As_ParameterNotFound err then ret (false, None)
      else ret (false, Some err)
  | inl _ => ret (true, None)
  end.

(** How a store answers a listing that starts at token [tok]: the pages
    it hands out one after the other, [None] when the last of them
    carries no further token, [Some err] when the fetch after them
    fails, and the state it ends in. *)
Inductive pageRun (path : string) (recursive : bool)
    : St -> option string -> list (list SSMParameter) -> option error -> St -> Prop :=
  | run_last s tok page next s' :
      GetParametersByPath api
        {| gp_Path := aws.String path; gp_Recursive := aws.Bool recursive;
           gp_WithDecryption := aws.Bool false; gp_NextToken := tok |} s
      = (inl {| gpp_Parameters := page; NextToken := next |}, s') ->
      next = None \/ next = Some "" ->
      pageRun path recursive s tok [page] None s'
  | run_more s tok page t s1 rest out s' :
      GetParametersByPath api
        {| gp_Path := aws.String path; gp_Recursive := aws.Bool recursive;
           gp_WithDecryption := aws.Bool false; gp_NextToken := tok |} s
      = (inl {| gpp_Parameters := page; NextToken := Some t |}, s1) ->
      t <> "" ->
      pageRun path recursive s1 (Some t) rest out s' ->
      pageRun path recursive s tok (page :: rest) out s'
  | run_fail s tok err s' :
      GetParametersByPath api
        {| gp_Path := aws.String path; gp_Recursive := aws.Bool recursive;
           gp_WithDecryption := aws.Bool false; gp_NextToken := tok |} s
      = (inr err, s') ->
      pageRun path recursive s tok [] (Some err) s'.

End Client.

Arguments pageRun {St}.

(** The fetches a listing needs: one per page, one more when it fails. *)
Definition fetches (pages : list (list SSMParameter)) (out : option error) : nat :=
  (length pages + match out with Some _ => 1 | None => 0 end)%nat.

(** Every request of a listing asks for the same path, with the same
    recursion flag, without decryption. *)
Definition listRequest (path : string) (recursive : bool)
    (r : GetParametersByPathInput) : Prop :=
  gp_Path r = Some path ∧ gp_Recursive r = Some recursive
  ∧ gp_WithDecryption r = Some false.

(** ** The write command ([cmd.runWrite])

    What the command reads from outside the program is given by an [OS]
    record: files, standard input, the terminal, and whether the AWS
    configuration loads. *)

Record OS := mkOS {
  ReadFile : string -> string * option error;
  stdin : string;
  IsTerminal : bool;
  ReadPassword : string * option error;
  LoadDefaultConfig : string -> option error
}.

(** The flags of [lockr write]. *)
Record WriteFlags := mkWriteFlags {
  writeValue : string;
  writeFile : string;
  writeTags : list string;
  writeOverwrite : bool
}.

Definition newline : ascii := "010"%char.

(** [reader.ReadString(delim)] on the unread input [buf]: the line read
    (delimiter included), the input left, and whether it hit the end
    of the input (the only error modelled). *)
Fixpoint ReadString (buf : string) (delim : ascii) : string * string * bool :=
  match buf with
  | EmptyString => (EmptyString, EmptyString, true)
  | String c buf' =>
      if Ascii.eqb c delim then (String c EmptyString, buf', false)
      else let '(line, rest, err) := ReadString buf' delim in
           (String c line, rest, err)
  end.

(** The [for] loop of [readStdin]; every round but the last consumes a
    line, so the length of the input bounds the rounds. *)
Fixpoint readStdinLoop (fuel : nat) (buf : string) (lines : list string)
    : list string :=
  match fuel with
  | O => lines
  | S fuel' =>
      let '(line, rest, err) := ReadString buf newline in
      if err then
        if bool_decide (0 < length lines) || negb (String.eqb line "")
        then lines ++ [line] else lines
      else readStdinLoop fuel' rest (lines ++ [line])
  end.

(** [readStdin()] *)
Definition readStdin (os : OS) : string * option error :=
  let lines := readStdinLoop (S (String.length (stdin os))) (stdin os) [] in
  let result := strings.Join lines "" in
  (strings.TrimSuffix result (String newline EmptyString), None).

(** [promptSecureValue(prompt)] *)
Definition promptSecureValue (os : OS) (prompt : string) : string * option error :=
  if IsTerminal os then ReadPassword os else readStdin os.

(** The [switch] of [runWrite] that picks the value: file, then the value
    flag (["-"] for standard input), then the prompt. *)
Definition valueSource (os : OS) (flags : WriteFlags) : string + error :=
  if negb (String.eqb (writeFile flags) "") then
    match ReadFile os (writeFile flags) with
    | (_, Some err) => inr (Wrapped "failed to read file" err)
    | (data, None) => inl data
    end
  else if String.eqb (writeValue flags) "-" then
    match readStdin os with
    | (_, Some err) => inr (Wrapped "failed to read from stdin" err)
    | (data, None) => inl data
    end
  else if negb (String.eqb (writeValue flags) "") then inl (writeValue flags)
  else
    match promptSecureValue os "Enter secret value: " with
    | (_, Some err) => inr (Wrapped "failed to read value" err)
    | (value, None) => inl value
    end.

(** The tag-parsing loop of [runWrite]. *)
Fixpoint parseTags (tagFlags : list string) (tags : gmap string string)
    : gmap string string + error :=
  match tagFlags with
  | [] => inl tags
  | tag :: rest =>
      match strings.SplitN2 tag "=" with
      | [k; v] => parseTags rest (<[k := v]> tags)
      | _ => inr (ErrorString ("invalid tag format: " +:+ tag +:+ " (expected key=value)"))
      end
  end.

(** [ssm.NewClient(region)]: the client exists unless the configuration
    fails to load. *)
Definition NewClient (os : OS) (region : string) : option error :=
  match LoadDefaultConfig os region with
  | Some err => Some (Wrapped "failed to load AWS config" err)
  | None => None
  end.

(** [runWrite(cmd, args)] with [args = [arg]]; printing is left out. *)
Definition runWrite {St} (api : SSMAPI St) (cfg : Config) (os : OS)
    (flags : WriteFlags) (arg : string) : M St (option error) :=
  let path := buildPath cfg arg in
  match valueSource os flags with
  | inr err => ret (Some err)
  | inl value =>
      if String.eqb value "" then ret (Some (ErrorString "value cannot be empty"))
      else
        match parseTags (writeTags flags) ∅ with
        | inr err => ret (Some err)
        | inl tags =>
            match NewClient os (Region cfg) with
            | Some err => ret (Some (Wrapped "failed to create SSM client" err))
            | None =>
                let* err := WriteSecret api path value tags
                              (writeOverwrite flags) (KMSKey cfg) in
                match err with
                | Some err => ret (Some (Wrapped "failed to write secret" err))
                | None => ret None
                end
            end
        end
  end.

(** ** The other commands ([cmd.runDelete], [cmd.runRead], [cmd.runList])
    and the configuration flags ([cmd.initConfig]) *)

(** The Go slice [s[n:]], for [n] within the string. *)
Fixpoint sliceFrom (n : nat) (s : string) : string :=
  match n with
  | O => s
  | S n' =>
      match s with
      | EmptyString => EmptyString
      | String _ s' => sliceFrom n' s'
      end
  end.

(** [strings.TrimPrefix(s, prefix)] *)
Definition TrimPrefix (s prefix : string) : string :=
  if strings.HasPrefix s prefix then sliceFrom (String.length prefix) s else s.

(** Whether the byte [c] occurs in [s]. *)
Fixpoint containsByte (s : string) (c : ascii) : bool :=
  match s with
  | EmptyString => false
  | String d s' => if Ascii.eqb d c then true else containsByte s' c
  end.

(** The name column of [runTableList]: the name relative to the listed
    path when it starts with it. *)
Definition displayName (basePath name : string) : string :=
  if negb (String.eqb basePath "/") && strings.HasPrefix name basePath then
    let displayName := TrimPrefix name basePath in
    if String.eqb displayName "" then name
    else if strings.HasPrefix displayName "/" then sliceFrom 1 displayName
    else displayName
  else name.

(** The persistent flags of the root command, with their values after
    parsing. *)
Record RootFlags := mkRootFlags {
  flagPrefix : string;
  flagEnv : string;
  flagOutput : string;
  flagRegion : string
}.

(** The values the flags have when none is given on the command line
    ([cmd.init]). *)
Definition defaultRootFlags : RootFlags :=
  {| flagPrefix := ""; flagEnv := ""; flagOutput := "text"; flagRegion := "" |}.

(** [initConfig()]: [loaded] is what [config.Load(cfgFile)] returned. *)
Definition initConfig (loaded : Config) (flags : RootFlags) : Config :=
  let cfg := loaded in
  let cfg :=
    if negb (String.eqb (flagPrefix flags) "")
    then {| Prefix := flagPrefix flags; Env := Env cfg; Output := Output cfg;
            KMSKey := KMSKey cfg; Region := Region cfg |}
    else cfg in
  let cfg :=
    if negb (String.eqb (flagEnv flags) "")
    then {| Prefix := Prefix cfg; Env := flagEnv flags; Output := Output cfg;
            KMSKey := KMSKey cfg; Region := Region cfg |}
    else cfg in
  let cfg :=
    if negb (String.eqb (flagOutput flags) "")
    then {| Prefix := Prefix cfg; Env := Env cfg; Output := flagOutput flags;
            KMSKey := KMSKey cfg; Region := Region cfg |}
    else cfg in
  if negb (String.eqb (flagRegion flags) "")
  then {| Prefix := Prefix cfg; Env := Env cfg; Output := Output cfg;
          KMSKey := KMSKey cfg; Region := flagRegion flags |}
  else cfg.

(** The person at the terminal: the answer to the confirmation prompt of
    [lockr delete], and the answer of the interactive selector to a list
    of options (an error is a cancellation). *)
Record Terminal := mkTerminal {
  Confirm : bool;
  Select : list string -> string * option error
}.

(** A row of the table of [runTableList], before formatting. *)
Record TableRow := mkTableRow {
  row_Name : string;
  row_Type : string;
  row_Version : Z;
  row_LastModified : option Z
}.

(** What a command shows, in order.  Spinners, blank lines, counts and
    hints are left out; numbers and times are not formatted. *)
Inductive Shown : Type :=
  | Warning (msg : string)
  | PrintListJSON (secrets : list SecretMetadata)
  | SelectPrompt (options : list string)
  | SecretDetails (s : SecretMetadata)
  | ListTable (title : string) (rows : list TableRow)
  | PrintValue (value : string)
  | PrintSecretJSON (name value type : string) (version : Z)
      (tags : option (gmap string string))
  | SecretTable (name value type : string) (version : Z)
  | TagsTable (tags : gmap string string).

(** [fmt.Errorf(msg + ": %w", err)] on the error of a call, nil kept. *)
Definition wrapError (msg : string) (err : option error) : option error :=
  match err with
  | Some err => Some (Wrapped msg err)
  | None => None
  end.

(** [runDelete(cmd, args)] with [args = [arg]]; printing is left out. *)
Definition runDelete {St} (api : SSMAPI St) (cfg : Config) (os : OS)
    (term : Terminal) (deleteForce : bool) (arg : string) : M St (option error) :=
  let path := buildPath cfg arg in
  let delete : M St (option error) :=
    match NewClient os (Region cfg) with
    | Some err => ret (Some (Wrapped "failed to create SSM client" err))
    | None =>
        let* err := DeleteSecret api path in
        ret (wrapError "failed to delete secret" err)
    end in
  if negb deleteForce then
    let result := Confirm term in
    if negb result then ret None else delete
  else delete.

(** The first secret of the list with the selected name (the second loop
    of [runInteractiveList]). *)
Fixpoint findSelected (secrets : list SecretMetadata) (selected : string)
    : option SecretMetadata :=
  match secrets with
  | [] => None
  | s :: secrets' =>
      if String.eqb (meta_Name s) selected then Some s
      else findSelected secrets' selected
  end.

(** [runInteractiveList(secrets)]: the error returned and what is shown. *)
Definition runInteractiveList (term : Terminal) (secrets : list SecretMetadata)
    : option error * list Shown :=
  let options := meta_Name <$> secrets in
  match Select term options with
  | (_, Some _) => (None, [SelectPrompt options])
  | (selected, None) =>
      match findSelected secrets selected with
      | Some s => (None, [SelectPrompt options; SecretDetails s])
      | None => (None, [SelectPrompt options])
      end
  end.

(** One row of [runTableList]. *)
Definition tableRow (basePath : string) (s : SecretMetadata) : TableRow :=
  {| row_Name := displayName basePath (meta_Name s);
     row_Type := meta_Type s;
     row_Version := meta_Version s;
     row_LastModified := meta_LastModified s |}.

(** [runTableList(secrets, basePath)] *)
Definition runTableList (secrets : list SecretMetadata) (basePath : string)
    : option error * list Shown :=
  let title :=
    if negb (String.eqb basePath "/") then "Secrets at " +:+ basePath
    else "All Secrets" in
  (None, [ListTable title (tableRow basePath <$> secrets)]).

(** [runList(cmd, args)]; [None] when the listing runs out of fuel. *)
Definition runList {St} (api : SSMAPI St) (fuel : nat) (cfg : Config) (os : OS)
    (term : Terminal) (listRecursive listInteractive : bool) (args : list string)
    : M St (option (option error * list Shown)) :=
  let path := match args with
              | arg :: _ => buildPath cfg arg
              | [] => "/"
              end in
  let noPathProvided := bool_decide (length args = 0) in
  let listRecursive := if noPathProvided then true else listRecursive in
  let listInteractive := if noPathProvided then true else listInteractive in
  match NewClient os (Region cfg) with
  | Some err => ret (Some (Some (Wrapped "failed to create SSM client" err), []))
  | None =>
      let* r := ListSecrets api fuel path listRecursive in
      match r with
      | None => ret None
      | Some (_, Some err) =>
          ret (Some (Some (Wrapped "failed to list secrets" err), []))
      | Some (secrets, None) =>
          if bool_decide (length secrets = 0) then
            ret (Some (None, [Warning ("No secrets found at " +:+ path)]))
          else if String.eqb (Output cfg) "json" then
            ret (Some (None, [PrintListJSON secrets]))
          else if listInteractive then
            ret (Some (runInteractiveList term secrets))
          else ret (Some (runTableList secrets path))
      end
  end.

(** [interactiveSecretSearch()]: the selected path, the error, and what
    is shown; [None] when the listing runs out of fuel. *)
Definition interactiveSecretSearch {St} (api : SSMAPI St) (fuel : nat)
    (cfg : Config) (os : OS) (term : Terminal)
    : M St (option (string * option error * list Shown)) :=
  match NewClient os (Region cfg) with
  | Some err =>
      ret (Some ("", Some (Wrapped "failed to create SSM client" err), []))
  | None =>
      let* r := ListSecrets api fuel "/" true in
      match r with
      | None => ret None
      | Some (_, Some err) =>
          ret (Some ("", Some (Wrapped "failed to list secrets" err), []))
      | Some (secrets, None) =>
          if bool_decide (length secrets = 0) then
            ret (Some ("", None, [Warning "No secrets found"]))
          else
            let options := meta_Name <$> secrets in
            match Select term options with
            | (_, Some _) => ret (Some ("", None, [SelectPrompt options]))
            | (selected, None) => ret (Some (selected, None, [SelectPrompt options]))
            end
      end
  end.

(** What [runRead] prints for a secret. *)
Definition showSecret (cfg : Config) (readQuiet : bool) (secret : Secret)
    : list Shown :=
  if readQuiet then [PrintValue (sec_Value secret)]
  else if String.eqb (Output cfg) "json" then
    [PrintSecretJSON (sec_Name secret) (sec_Value secret) (sec_Type secret)
       (sec_Version secret)
       (if bool_decide (0 < size (sec_Tags secret))%nat
        then Some (sec_Tags secret) else None)]
  else
    SecretTable (sec_Name secret) (sec_Value secret) (sec_Type secret)
      (sec_Version secret)
    :: (if bool_decide (0 < size (sec_Tags secret))%nat
        then [TagsTable (sec_Tags secret)] else []).

(** The part of [runRead] after the path is known. *)
Definition readAt {St} (api : SSMAPI St) (cfg : Config) (os : OS)
    (readQuiet : bool) (path : string) (shown : list Shown)
    : M St (option (option error * list Shown)) :=
  match NewClient os (Region cfg) with
  | Some err => ret (Some (Some (Wrapped "failed to create SSM client" err), shown))
  | None =>
      let* r := ReadSecret api path in
      match r with
      | (_, Some err) => ret (Some (Some (Wrapped "failed to read secret" err), shown))
      | (None, None) => ret (Some (None, shown))
      | (Some secret, None) =>
          ret (Some (None, shown ++ showSecret cfg readQuiet secret))
      end
  end.

(** [runRead(cmd, args)]; [None] when the listing runs out of fuel. *)
Definition runRead {St} (api : SSMAPI St) (fuel : nat) (cfg : Config) (os : OS)
    (term : Terminal) (readQuiet : bool) (args : list string)
    : M St (option (option error * list Shown)) :=
  match args with
  | [] =>
      let* found := interactiveSecretSearch api fuel cfg os term in
      match found with
      | None => ret None
      | Some (_, Some err, shown) => ret (Some (Some err, shown))
      | Some (selectedPath, None, shown) =>
          if String.eqb selectedPath "" then ret (Some (None, shown))
          else readAt api cfg os readQuiet selectedPath shown
      end
  | arg :: _ => readAt api cfg os readQuiet (buildPath cfg arg) []
  end.

(** ** Test doubles *)

(** A scripted store: the answer to a write depends on how many writes
    came before, a read or tag call gets a fixed answer, a page is looked
    up by its token. *)
Record Script := mkScript {
  putAnswers : list (unit + error);
  putDefault : unit + error;
  addTagsAnswer : unit + error;
  getAnswer : GetParameterOutput + error;
  listTagsAnswer : ListTagsForResourceOutput + error;
  pages : list (option string * (GetParametersByPathOutput + error));
  deleteAnswer : unit + error
}.

(** The page of a scripted store for a token. *)
Fixpoint lookupPage (tok : option string)
    (ps : list (option string * (GetParametersByPathOutput + error)))
    : GetParametersByPathOutput + error :=
  match ps with
  | [] => inr (ErrorString "InvalidNextToken")
  | (t, page) :: ps' => if decide (t = tok) then page else lookupPage tok ps'
  end.

(** The store of a script; its state is the number of writes served. *)
Definition scripted (sc : Script) : SSMAPI nat :=
  {| PutParameter := fun _ n => (nth n (putAnswers sc) (putDefault sc), S n);
     AddTagsToResource := fun _ n => (addTagsAnswer sc, n);
     GetParameter := fun _ n => (getAnswer sc, n);
     ListTagsForResource := fun _ n => (listTagsAnswer sc, n);
     GetParametersByPath := fun input n => (lookupPage (gp_NextToken input) (pages sc), n);
     DeleteParameter := fun _ n => (deleteAnswer sc, n) |}.

(** A store in which the path already exists: the first write is refused
    with "already exists", every later call succeeds; a read finds the
    parameter [/app/db] at version 3; the listing has three parameters on
    two pages. *)
Definition dbParameter : SSMParameter :=
  {| par_Name := Some "/app/db"; par_Value := Some "s3cret";
     par_Type := "SecureString"; par_Version := 3;
     par_LastModifiedDate := Some 1700000000%Z |}.

Definition apiParameter : SSMParameter :=
  {| par_Name := Some "/app/api"; par_Value := None;
     par_Type := "SecureString"; par_Version := 1;
     par_LastModifiedDate := None |}.

Definition existing : Script :=
  {| putAnswers :=
       [inr (Wrapped "operation error SSM: PutParameter"
               (ParameterAlreadyExists "The parameter already exists."))];
     putDefault := inl tt;
     addTagsAnswer := inl tt;
     getAnswer := inl {| gpo_Parameter := dbParameter |};
     listTagsAnswer := inr (ErrorString "AccessDeniedException");
     pages :=
       [(None, inl {| gpp_Parameters := [apiParameter; dbParameter];
                      NextToken := Some "page-2" |});
        (Some "page-2", inl {| gpp_Parameters := [apiParameter];
                               NextToken := None |})];
     deleteAnswer := inl tt |}.

(** A store in which nothing exists and whose listing fails on its second
    page. *)
Definition absent : Script :=
  {| putAnswers := [];
     putDefault := inl tt;
     addTagsAnswer := inl tt;
     getAnswer := inr (Wrapped "operation error SSM: GetParameter"
                         (ParameterNotFound "Parameter not found."));
     listTagsAnswer := inr (ErrorString "InvalidResourceId");
     pages :=
       [(None, inl {| gpp_Parameters := [apiParameter];
                      NextToken := Some "page-2" |});
        (Some "page-2", inr (ErrorString "ThrottlingException"))];
     deleteAnswer := inr (ParameterNotFound "Parameter not found.") |}.

(** The tags of [--tag owner=x]. *)
Definition ownerTags : gmap string string := {[ "owner" := "x" ]}.

(** A machine on which standard input is empty and is not a terminal. *)
Definition emptyStdin : OS :=
  {| ReadFile := fun _ => ("", Some (ErrorString "no such file or directory"));
     stdin := "";
     IsTerminal := false;
     ReadPassword := ("", Some (ErrorString "inappropriate ioctl for device"));
     LoadDefaultConfig := fun _ => None |}.

(** [lockr write --value - --tag owner=x] *)
Definition fromStdin : WriteFlags :=
  {| writeValue := "-"; writeFile := ""; writeTags := ["owner=x"];
     writeOverwrite := true |}.

(** A machine whose standard input is two lines, each ended by a newline,
    and is not a terminal. *)
Definition twoLines : OS :=
  {| ReadFile := fun _ => ("", Some (ErrorString "no such file or directory"));
     stdin := "line1" +:+ String newline ("line2" +:+ String newline "");
     IsTerminal := false;
     ReadPassword := ("", Some (ErrorString "inappropriate ioctl for device"));
     LoadDefaultConfig := fun _ => None |}.

(** [lockr write --value v --tag owner=x --tag team] *)
Definition badTagFlags : WriteFlags :=
  {| writeValue := "v"; writeFile := ""; writeTags := ["owner=x"; "team"];
     writeOverwrite := true |}.

(** [lockr write --value v --tag owner=x] *)
Definition taggedFlags : WriteFlags :=
  {| writeValue := "v"; writeFile := ""; writeTags := ["owner=x"];
     writeOverwrite := true |}.

(** A configuration with a prefix, an environment and a key of its own. *)
Definition teamConfig : Config :=
  {| Prefix := "/infra"; Env := "prod"; Output := "json";
     KMSKey := "alias/team"; Region := "" |}.

(** Someone who declines the confirmation and cancels the selector. *)
Definition cancels : Terminal :=
  {| Confirm := false;
     Select := fun _ => ("", Some (ErrorString "interrupt")) |}.

(** Someone who confirms and selects [/app/db]. *)
Definition picksDb : Terminal :=
  {| Confirm := true;
     Select := fun _ => ("/app/db", None) |}.

(** * Path resolution *)

Section PathResolution.

Implicit Types (input prefix env s t : string) (c : ascii).

Lemma HasPrefix_slash_cons s : strings.HasPrefix ("/" +:+ s) "/" = true.
Proof. reflexivity. Qed.

(** Whatever the configuration, a built path starts with a slash. *)
Lemma buildPath_absolute cfg input :
  strings.HasPrefix (buildPath cfg input) "/" = true.
Proof.
  unfold buildPath.
  destruct (strings.HasPrefix input "/") eqn:Habs; [exact Habs|].
  apply HasPrefix_slash_cons.
Qed.

Lemma buildPath_of_absolute cfg input :
  strings.HasPrefix input "/" = true → buildPath cfg input = input.
Proof. intros H. unfold buildPath. by rewrite H. Qed.

Lemma SplitByte_nonnil s c : strings.SplitByte s c ≠ [].
Proof.
  destruct s as [|d s]; simpl; [done|].
  destruct (Ascii.eqb d c); [done|].
  by destruct (strings.SplitByte s c).
Qed.

(** Splitting commutes with gluing two strings by the separator. *)
Lemma SplitByte_glue s t c :
  strings.SplitByte (s +:+ String c t) c
  = strings.SplitByte s c ++ strings.SplitByte t c.
Proof.
  induction s as [|d s IH]; simpl.
  - by rewrite Ascii.eqb_refl.
  - destruct (Ascii.eqb d c); [by rewrite IH|].
    rewrite IH.
    pose proof (SplitByte_nonnil s c) as Hne.
    by destruct (strings.SplitByte s c).
Qed.

Lemma all_nonempty_app (l1 l2 : list string) :
  all_nonempty (l1 ++ l2) = all_nonempty l1 && all_nonempty l2.
Proof. apply forallb_app. Qed.

(** A string whose fields are all non-empty is relative. *)
Lemma fields_nonempty_relative s :
  all_nonempty (strings.SplitByte s "/") = true →
  strings.HasPrefix s "/" = false.
Proof.
  destruct s as [|d s]; simpl; [done|].
  destruct (Ascii.eqb d "/"); [done|done].
Qed.

End PathResolution.

(** C2, as the claim states it, fails: an absolute input is returned as
    it is, empty segments included. *)
Lemma resolve_empty_segment_counterexample :
  ¬ (∀ input prefix env : string,
       no_empty_segment (resolve input prefix env) = true).
Proof.
  intros H. specialize (H "/a//b" "/infra/saas" "prod").
  vm_compute in H. discriminate H.
Qed.

(** C2 (amended): an input that starts with a slash is returned unchanged;
    any other input gives the join, behind one leading slash, of the
    trimmed prefix, the environment and the input, each of the first two
    left out when empty, provided the prefix is empty or has a character
    other than a slash; the two examples of the specification hold; and
    the result has no empty segment when the input, the environment (if
    any) and the trimmed prefix (if any) have no empty field. *)
Theorem resolve_amended (input prefix env : string) :
  (strings.HasPrefix input "/" = true → resolve input prefix env = input)
  ∧ (strings.HasPrefix input "/" = false →
     prefix = "" ∨ strings.Trim prefix "/" ≠ "" →
     resolve input prefix env = resolve_spec input prefix env)
  ∧ resolve "x/y" "/infra/saas" "prod" = "/infra/saas/prod/x/y"
  ∧ resolve "k" "" "" = "/k"
  ∧ (fields_nonempty input = true →
     env = "" ∨ fields_nonempty env = true →
     prefix = "" ∨ fields_nonempty (strings.Trim prefix "/") = true →
     no_empty_segment (resolve input prefix env) = true).
Proof.
  split; [apply buildPath_of_absolute|].
  split.
  { intros Hrel Hp. unfold resolve, resolve_spec, buildPath.
    rewrite Hrel. cbn [Prefix Env].
    destruct (String.eqb_spec env "") as [->|_].
    - destruct Hp as [->|Hp]; [reflexivity|].
      destruct (String.eqb_spec prefix "") as [->|_]; [by destruct Hp|].
      by destruct (String.eqb_spec (strings.Trim prefix "/") "").
    - destruct Hp as [->|Hp]; [reflexivity|].
      destruct (String.eqb_spec prefix "") as [->|_]; [by destruct Hp|].
      by destruct (String.eqb_spec (strings.Trim prefix "/") ""). }
  split; [reflexivity|]. split; [reflexivity|].
  unfold fields_nonempty. intros Hin Henv Hpre.
  unfold no_empty_segment, resolve, buildPath.
  rewrite (fields_nonempty_relative _ Hin). cbn [Prefix Env].
  destruct (String.eqb_spec prefix "") as [->|Hp0];
    destruct (String.eqb_spec env "") as [->|He0]; simpl.
  - exact Hin.
  - destruct Henv as [?|Henv]; [done|].
    change ("" +:+ env +:+ "/" +:+ input) with (env +:+ String "/" input).
    rewrite SplitByte_glue, all_nonempty_app, Henv, Hin. reflexivity.
  - destruct Hpre as [?|Hpre]; [done|].
    change ("" +:+ strings.Trim prefix "/" +:+ "/" +:+ input)
      with (strings.Trim prefix "/" +:+ String "/" input).
    rewrite SplitByte_glue, all_nonempty_app, Hpre, Hin. reflexivity.
  - destruct Henv as [?|Henv]; [done|]. destruct Hpre as [?|Hpre]; [done|].
    change ("" +:+ strings.Trim prefix "/" +:+ "/" +:+ env +:+ "/" +:+ input)
      with (strings.Trim prefix "/" +:+ String "/" (env +:+ String "/" input)).
    rewrite !SplitByte_glue, !all_nonempty_app, Hpre, Henv, Hin. reflexivity.
Qed.

(** The amended C2 at the specification's example. *)
Lemma resolve_amended_witness :
  resolve "x/y" "/infra/saas" "prod" = resolve_spec "x/y" "/infra/saas" "prod"
  ∧ no_empty_segment (resolve "x/y" "/infra/saas" "prod") = true
  ∧ resolve "/a//b" "/infra/saas" "prod" = "/a//b".
Proof.
  destruct (resolve_amended "x/y" "/infra/saas" "prod") as (_ & Hrel & _ & _ & Hseg).
  destruct (resolve_amended "/a//b" "/infra/saas" "prod") as (Habs & _).
  split; [apply Hrel; [reflexivity | right; vm_compute; discriminate]|].
  split; [apply Hseg; [reflexivity | right; reflexivity | right; reflexivity]|].
  apply Habs. reflexivity.
Defined.

(** A prefix made of slashes only is not left out: the emptiness test of
    [buildPath] comes before the trimming. *)
Example resolve_slash_prefix : resolve "k" "/" "" = "//k".
Proof. reflexivity. Qed.

(** C3: resolving a resolved path again changes nothing. *)
Theorem resolve_idempotent (input prefix env : string) :
  resolve (resolve input prefix env) prefix env = resolve input prefix env.
Proof.
  unfold resolve. apply buildPath_of_absolute, buildPath_absolute.
Qed.

(** * The write protocol *)

Section WriteProtocol.

Context {St : Type} (api : SSMAPI St).

Implicit Types (path value kmsKey : string) (tags : gmap string string)
  (overwrite : bool) (w : World St).

Lemma size_nonempty tags : tags ≠ ∅ → 0 < size tags.
Proof.
  intros Hne. apply map_size_non_empty_iff in Hne. lia.
Qed.

(** [SetTags] is one tag-set call, whose error it returns. *)
Lemma SetTags_call path tags w :
  let r := AddTagsToResource api (setTagsInput path tags) (store w) in
  SetTags api path tags w
  = (errorOf r.1, logged w (CallAddTagsToResource (setTagsInput path tags)) r.2).
Proof.
  unfold SetTags, bind, invoke, ret, logged; simpl.
  by destruct (AddTagsToResource api _ _).
Qed.

(** The input of the first write: secure string, no overwrite flag, no
    tags, a key when one is configured. *)
Lemma writeInput_fields path value kmsKey :
  let input := writeInput path value kmsKey in
  put_Name input = Some path ∧ put_Value input = Some value
  ∧ put_Type input = ParameterTypeSecureString
  ∧ put_Overwrite input = None ∧ put_Tags input = []
  ∧ put_KeyId input = (if String.eqb kmsKey "" then None else Some kmsKey).
Proof.
  unfold writeInput. by destruct (String.eqb kmsKey "").
Qed.

(** Unfolding of the tagged branch after the first write. *)
Lemma WriteSecret_tagged_step path value tags overwrite kmsKey w :
  tags ≠ ∅ →
  let input := writeInput path value kmsKey in
  let first := PutParameter api input (store w) in
  let w1 := logged w (CallPutParameter input) first.2 in
  WriteSecret api path value tags overwrite kmsKey w
  = match first.1 with
    | inl _ => SetTags api path tags w1
    | inr err =>
        if As_ParameterAlreadyExists err && overwrite then
          let retry := PutParameter api (setOverwrite input true) first.2 in
          let w2 := logged w1 (CallPutParameter (setOverwrite input true)) retry.2 in
          match retry.1 with
          | inl _ => SetTags api path tags w2
          | inr err2 => (Some err2, w2)
          end
        else (Some err, w1)
    end.
Proof.
  intros Hne. pose proof (size_nonempty _ Hne) as Hsz.
  unfold WriteSecret. destruct (decide (0 < size tags)); [|done].
  unfold bind at 1. unfold invoke at 1. unfold logged.
  destruct (PutParameter api (writeInput path value kmsKey) (store w))
    as [[u|err] s1]; simpl; [done|].
  destruct (As_ParameterAlreadyExists err && overwrite); [|done].
  unfold bind, invoke at 1; simpl.
  by destruct (PutParameter api _ s1) as [[u|err2] s2].
Qed.

(** C1: with a non-empty tag map, [WriteSecret] first issues a write that
    has neither the overwrite flag nor tags.  If it succeeds, the tag-set
    call follows.  If it fails with "already exists" and [overwrite] is
    set, the write is retried with [Overwrite = true] and still no tags,
    and the tag-set call follows the retry (a retry that fails is
    returned at once).  If it fails with "already exists" and
    [overwrite] is not set, that error is returned and nothing more is
    called; likewise for any other error.  The tag-set step is exactly
    one [AddTagsToResource] call. *)
Theorem WriteSecret_tagged_protocol path value tags overwrite kmsKey w :
  tags ≠ ∅ →
  let input := writeInput path value kmsKey in
  let first := PutParameter api input (store w) in
  let w1 := logged w (CallPutParameter input) first.2 in
  let retry := PutParameter api (setOverwrite input true) first.2 in
  let w2 := logged w1 (CallPutParameter (setOverwrite input true)) retry.2 in
  let tagged w' :=
    let r := AddTagsToResource api (setTagsInput path tags) (store w') in
    (errorOf r.1, logged w' (CallAddTagsToResource (setTagsInput path tags)) r.2) in
  (put_Overwrite input = None ∧ put_Tags input = [])
  ∧ (put_Overwrite (setOverwrite input true) = Some true
     ∧ put_Tags (setOverwrite input true) = [])
  ∧ (∀ u, first.1 = inl u →
       WriteSecret api path value tags overwrite kmsKey w = tagged w1)
  ∧ (∀ err, first.1 = inr err → As_ParameterAlreadyExists err = true →
       overwrite = true →
       (∀ u, retry.1 = inl u →
          WriteSecret api path value tags overwrite kmsKey w = tagged w2)
       ∧ (∀ err2, retry.1 = inr err2 →
          WriteSecret api path value tags overwrite kmsKey w = (Some err2, w2)))
  ∧ (∀ err, first.1 = inr err → As_ParameterAlreadyExists err = true →
       overwrite = false →
       WriteSecret api path value tags overwrite kmsKey w = (Some err, w1))
  ∧ (∀ err, first.1 = inr err → As_ParameterAlreadyExists err = false →
       WriteSecret api path value tags overwrite kmsKey w = (Some err, w1)).
Proof.
  intros Hne input first w1 retry w2 tagged.
  pose proof (WriteSecret_tagged_step path value tags overwrite kmsKey w Hne) as Hstep.
  cbv zeta in Hstep. fold input first w1 retry w2 in Hstep.
  destruct (writeInput_fields path value kmsKey) as (_ & _ & _ & Hov & Htg & _).
  fold input in Hov, Htg.
  split; [done|]. split; [by simpl|].
  split; [|split; [|split]].
  - intros u Hu. rewrite Hstep, Hu. apply SetTags_call.
  - intros err He Hae ->. rewrite Hstep, He, Hae. simpl. split.
    + intros u Hu. rewrite Hu. apply SetTags_call.
    + intros err2 He2. by rewrite He2.
  - intros err He Hae ->. by rewrite Hstep, He, Hae.
  - intros err He Hae. by rewrite Hstep, He, Hae.
Qed.

(** The calls a run of [WriteSecret] adds to the log. *)
Lemma WriteSecret_calls path value tags overwrite kmsKey w :
  let input := writeInput path value kmsKey in
  ∃ puts tagCalls,
    calls (WriteSecret api path value tags overwrite kmsKey w).2
    = calls w ++ (CallPutParameter <$> puts)
              ++ (CallAddTagsToResource <$> tagCalls)
    ∧ puts ≠ []
    ∧ Forall (λ i, ∃ ov, i = {| put_Name := put_Name input;
                                put_Value := put_Value input;
                                put_Type := put_Type input;
                                put_KeyId := put_KeyId input;
                                put_Overwrite := ov;
                                put_Tags := [] |}) puts.
Proof.
  intros input.
  assert (Hin : ∀ ov, setOverwrite input ov
                    = {| put_Name := put_Name input; put_Value := put_Value input;
                         put_Type := put_Type input; put_KeyId := put_KeyId input;
                         put_Overwrite := Some ov; put_Tags := [] |}).
  { intros ov. unfold setOverwrite, input.
    destruct (writeInput_fields path value kmsKey) as (_&_&_&_&Htg&_).
    by rewrite Htg. }
  assert (Hin0 : input
                 = {| put_Name := put_Name input; put_Value := put_Value input;
                      put_Type := put_Type input; put_KeyId := put_KeyId input;
                      put_Overwrite := None; put_Tags := [] |}).
  { unfold input, writeInput. by destruct (negb (String.eqb kmsKey "")). }
  destruct (decide (tags = ∅)) as [->|Hne].
  - unfold WriteSecret. fold input. rewrite map_size_empty.
    destruct (decide (0 < 0)); [lia|].
    unfold bind, invoke, ret.
    destruct (PutParameter api (setOverwrite input overwrite) (store w)) as [r s1].
    exists [setOverwrite input overwrite], []. simpl.
    split; [done|]. split; [done|].
    constructor; [|constructor]. exists (Some overwrite). apply Hin.
  - rewrite (WriteSecret_tagged_step _ _ _ _ _ _ Hne). cbv zeta. fold input.
    destruct (PutParameter api input (store w)) as [[u|err] s1]; simpl.
    + rewrite SetTags_call. simpl.
      exists [input], [setTagsInput path tags]. simpl.
      split; [by rewrite <-app_assoc|]. split; [done|].
      constructor; [|constructor]. by exists None.
    + destruct (As_ParameterAlreadyExists err && overwrite).
      * destruct (PutParameter api (setOverwrite input true) s1)
          as [[u|err2] s2]; simpl.
        -- rewrite SetTags_call. simpl.
           exists [input; setOverwrite input true], [setTagsInput path tags].
           simpl. split; [by rewrite <-!app_assoc|]. split; [done|].
           constructor; [by exists None|].
           constructor; [|constructor]. exists (Some true). apply Hin.
        -- exists [input; setOverwrite input true], []. simpl.
           split; [by rewrite <-!app_assoc|]. split; [done|].
           constructor; [by exists None|].
           constructor; [|constructor]. exists (Some true). apply Hin.
      * exists [input], []. simpl. split; [done|]. split; [done|].
        constructor; [|constructor]. by exists None.
Qed.

(** C9: whatever the arguments, [WriteSecret] issues at least one write,
    and every write it issues has the type [SecureString] and carries an
    encryption key exactly when [kmsKey] is not empty (that key). *)
Theorem WriteSecret_type_and_key path value tags overwrite kmsKey w :
  ∃ puts tagCalls,
    calls (WriteSecret api path value tags overwrite kmsKey w).2
    = calls w ++ (CallPutParameter <$> puts)
              ++ (CallAddTagsToResource <$> tagCalls)
    ∧ puts ≠ []
    ∧ ∀ i, i ∈ puts →
        put_Name i = Some path ∧ put_Value i = Some value
        ∧ put_Type i = ParameterTypeSecureString
        ∧ (is_Some (put_KeyId i) ↔ kmsKey ≠ "")
        ∧ (∀ k, put_KeyId i = Some k → k = kmsKey).
Proof.
  destruct (WriteSecret_calls path value tags overwrite kmsKey w)
    as (puts & tagCalls & Hcalls & Hne & Hall).
  exists puts, tagCalls. split; [done|]. split; [done|].
  intros i Hi. rewrite Forall_forall in Hall.
  destruct (Hall i Hi) as [ov ->]. simpl.
  destruct (writeInput_fields path value kmsKey) as (-> & -> & -> & _ & _ & ->).
  split; [done|]. split; [done|]. split; [done|].
  destruct (String.eqb_spec kmsKey "") as [->|Hk].
  - split; [split; [by intros [? ?]|done]|done].
  - split; [split; [done|by eexists]|]. by intros k [= ->].
Qed.

(** C10: with a non-empty tag map, when the first write does not fail
    with "already exists" (in particular when it succeeds, the path
    being new), the run is the same for [overwrite = true] and
    [overwrite = false]: same result, same calls, same store. *)
Theorem WriteSecret_overwrite_irrelevant path value tags kmsKey w :
  tags ≠ ∅ →
  match (PutParameter api (writeInput path value kmsKey) (store w)).1 with
  | inl _ => True
  | inr err => As_ParameterAlreadyExists err = false
  end →
  WriteSecret api path value tags true kmsKey w
  = WriteSecret api path value tags false kmsKey w.
Proof.
  intros Hne Hfirst.
  rewrite !(WriteSecret_tagged_step _ _ _ _ _ _ Hne). cbv zeta.
  destruct (PutParameter api (writeInput path value kmsKey) (store w))
    as [[u|err] s1]; simpl in *; [done|].
  by rewrite Hfirst.
Qed.

(** The client itself does not look at the value: with an empty value it
    still calls the store. *)
Lemma WriteSecret_empty_value_calls path tags overwrite kmsKey w :
  calls (WriteSecret api path "" tags overwrite kmsKey w).2 ≠ calls w.
Proof.
  destruct (WriteSecret_calls path "" tags overwrite kmsKey w)
    as (puts & tagCalls & -> & Hne & _).
  destruct puts as [|i puts]; [done|]. simpl.
  intros Heq. apply (f_equal length) in Heq.
  rewrite length_app in Heq. simpl in Heq. lia.
Qed.

(** C4: when the value that [runWrite] has read is empty, it fails with
    "value cannot be empty" and the world is untouched: no call reaches
    the store, whatever the path, the tags, the overwrite flag and the
    key. *)
Theorem runWrite_empty_value cfg os flags arg w :
  valueSource os flags = inl "" →
  runWrite api cfg os flags arg w
  = (Some (ErrorString "value cannot be empty"), w)
  ∧ calls (runWrite api cfg os flags arg w).2 = calls w.
Proof.
  intros Hv. unfold runWrite. rewrite Hv. by simpl.
Qed.

End WriteProtocol.

Lemma ownerTags_nonempty : ownerTags ≠ ∅.
Proof. apply map_non_empty_singleton. Qed.

(** C1 on a store where the path exists, with [overwrite] set: a refused
    write, the retry with the overwrite flag, then the tag-set call. *)
Lemma WriteSecret_tagged_protocol_witness :
  ownerTags ≠ ∅
  ∧ WriteSecret (scripted existing) "/app/db" "v" ownerTags true "" (fresh 0)
    = (None,
       {| store := 2;
          calls :=
            [CallPutParameter (writeInput "/app/db" "v" "");
             CallPutParameter (setOverwrite (writeInput "/app/db" "v" "") true);
             CallAddTagsToResource (setTagsInput "/app/db" ownerTags)] |}).
Proof.
  split; [exact ownerTags_nonempty|].
  destruct (WriteSecret_tagged_protocol (scripted existing)
              "/app/db" "v" ownerTags true "" (fresh 0) ownerTags_nonempty)
    as (_ & _ & _ & Hretry & _).
  destruct (Hretry _ eq_refl eq_refl eq_refl) as [Hok _].
  exact (Hok tt eq_refl).
Defined.

(** C10 on a store where the path is new. *)
Lemma WriteSecret_overwrite_irrelevant_witness :
  WriteSecret (scripted absent) "/app/db" "v" ownerTags true "" (fresh 0)
  = WriteSecret (scripted absent) "/app/db" "v" ownerTags false "" (fresh 0).
Proof.
  apply (WriteSecret_overwrite_irrelevant (scripted absent));
    [exact ownerTags_nonempty | exact I].
Defined.

(** C4 with the value piped from an empty standard input. *)
Lemma runWrite_empty_value_witness :
  valueSource emptyStdin fromStdin = inl ""
  ∧ runWrite (scripted existing) DefaultConfig emptyStdin fromStdin "app/db" (fresh 0)
    = (Some (ErrorString "value cannot be empty"), fresh 0).
Proof.
  split; [reflexivity|].
  apply (runWrite_empty_value (scripted existing)). reflexivity.
Defined.

(** * Reading, probing and listing *)

Section ReadProtocol.

Context {St : Type} (api : SSMAPI St).

Implicit Types (path : string) (recursive : bool) (w : World St).

(** C6: [Exists] issues one [GetParameter] call with decryption off and
    returns nothing but a boolean and an error: [true] when the call
    succeeds, [false] without error when it fails with "not found", and
    [false] with the store's error, unchanged, for any other failure. *)
Theorem Exists_probe path w :
  let probe := {| get_Name := Some path; get_WithDecryption := Some false |} in
  let r := GetParameter api probe (store w) in
  let w1 := logged w (CallGetParameter probe) r.2 in
  (∀ out, r.1 = inl out → Exists api path w = ((true, None), w1))
  ∧ (∀ err, r.1 = inr err → As_ParameterNotFound err = true →
       Exists api path w = ((false, None), w1))
  ∧ (∀ err, r.1 = inr err → As_ParameterNotFound err = false →
       Exists api path w = ((false, Some err), w1)).
Proof.
  intros probe r w1. subst w1 r.
  unfold Exists, bind, invoke, ret, logged, aws.String, aws.Bool. fold probe.
  destruct (GetParameter api probe (store w)) as [[out|err] s1]; simpl.
  - split; [done|]. split; intros ? [=].
  - split; [intros ? [=]|].
    split; intros err' [= <-] Hnf; by rewrite Hnf.
Qed.

(** What [ReadSecret] returns after a successful value fetch. *)
Lemma ReadSecret_found path w out s1 :
  GetParameter api {| get_Name := Some path; get_WithDecryption := Some true |}
    (store w) = (inl out, s1) →
  let w1 := logged w (CallGetParameter
                        {| get_Name := Some path;
                           get_WithDecryption := Some true |}) s1 in
  let tagReq := {| lt_ResourceType := ResourceTypeForTaggingParameter;
                   lt_ResourceId := Some path |} in
  let t := ListTagsForResource api tagReq s1 in
  ReadSecret api path w
  = ((Some {| sec_Name := aws.ToString (par_Name (gpo_Parameter out));
              sec_Value := aws.ToString (par_Value (gpo_Parameter out));
              sec_Type := par_Type (gpo_Parameter out);
              sec_Version := par_Version (gpo_Parameter out);
              sec_Description := "";
              sec_Tags := match t.1 with
                          | inl tagsResult => collectTags (TagList tagsResult)
                          | inr _ => ∅
                          end |},
      None),
     logged w1 (CallListTagsForResource tagReq) t.2).
Proof.
  intros Hget w1 tagReq t. subst w1 t.
  unfold ReadSecret, aws.String, aws.Bool.
  unfold bind at 1. unfold invoke at 1. rewrite Hget.
  unfold bind, invoke, logged. fold tagReq. simpl.
  destruct (ListTagsForResource api tagReq s1) as [[tagsResult|err] s2]; simpl.
  - destruct (decide (0 < length (TagList tagsResult))) as [Hlen|Hlen]; [done|].
    destruct (TagList tagsResult); [done|simpl in Hlen; lia].
  - done.
Qed.

(** C7: when the value fetch (a [GetParameter] call with decryption on)
    succeeds, [ReadSecret] makes the tag fetch and returns the secret
    with a nil error whatever the tag fetch answers; when the tag fetch
    fails the secret has no tags. *)
Theorem ReadSecret_tags_best_effort path w out s1 :
  GetParameter api {| get_Name := Some path; get_WithDecryption := Some true |}
    (store w) = (inl out, s1) →
  let tagReq := {| lt_ResourceType := ResourceTypeForTaggingParameter;
                   lt_ResourceId := Some path |} in
  let t := ListTagsForResource api tagReq s1 in
  ∃ secret,
    (ReadSecret api path w).1 = (Some secret, None)
    ∧ sec_Value secret = aws.ToString (par_Value (gpo_Parameter out))
    ∧ calls (ReadSecret api path w).2
      = calls w ++ [CallGetParameter {| get_Name := Some path;
                                        get_WithDecryption := Some true |};
                    CallListTagsForResource tagReq]
    ∧ (∀ err, t.1 = inr err → sec_Tags secret = ∅)
    ∧ (∀ tagsResult, t.1 = inl tagsResult →
         sec_Tags secret = collectTags (TagList tagsResult)).
Proof.
  intros Hget tagReq t.
  rewrite (ReadSecret_found _ _ _ _ Hget). cbv zeta. fold tagReq t.
  eexists. split; [reflexivity|]. simpl.
  split; [done|]. split; [by rewrite <-app_assoc|].
  split; [intros err ->|intros tr ->]; done.
Qed.

(** C8 (amended): the name of the secret that [ReadSecret] returns is
    the name the store put in its answer; it is the requested path
    whenever the store answers under that very name. *)
Theorem ReadSecret_name path w out s1 :
  GetParameter api {| get_Name := Some path; get_WithDecryption := Some true |}
    (store w) = (inl out, s1) →
  ∃ secret,
    (ReadSecret api path w).1 = (Some secret, None)
    ∧ sec_Name secret = aws.ToString (par_Name (gpo_Parameter out))
    ∧ (par_Name (gpo_Parameter out) = Some path → sec_Name secret = path).
Proof.
  intros Hget. rewrite (ReadSecret_found _ _ _ _ Hget). cbv zeta.
  eexists. split; [reflexivity|]. simpl.
  split; [done|]. by intros ->.
Qed.

(** A read fails exactly when the value fetch fails, with its error. *)
Lemma ReadSecret_failed path w err s1 :
  GetParameter api {| get_Name := Some path; get_WithDecryption := Some true |}
    (store w) = (inr err, s1) →
  (ReadSecret api path w).1 = (None, Some err).
Proof.
  intros Hget. unfold ReadSecret, aws.String, aws.Bool, bind, invoke.
  by rewrite Hget.
Qed.

End ReadProtocol.

(** C6 on a store without the path and on one with it. *)
Lemma Exists_probe_witness :
  Exists (scripted absent) "/app/db" (fresh 0)
  = ((false, None),
     logged (fresh 0)
       (CallGetParameter {| get_Name := Some "/app/db";
                            get_WithDecryption := Some false |}) 0)
  ∧ (Exists (scripted existing) "/app/db" (fresh 0)).1 = (true, None).
Proof.
  destruct (Exists_probe (scripted absent) "/app/db" (fresh 0)) as (_ & Hnf & _).
  destruct (Exists_probe (scripted existing) "/app/db" (fresh 0)) as (Hok & _).
  split; [exact (Hnf _ eq_refl eq_refl)|].
  by rewrite (Hok _ eq_refl).
Defined.

(** C7 on a store whose tag fetch is refused: the read succeeds, without
    tags. *)
Lemma ReadSecret_tags_best_effort_witness :
  ∃ secret,
    (ReadSecret (scripted existing) "/app/db" (fresh 0)).1 = (Some secret, None)
    ∧ sec_Value secret = "s3cret"
    ∧ sec_Tags secret = ∅.
Proof.
  destruct (ReadSecret_tags_best_effort (scripted existing) "/app/db" (fresh 0)
              {| gpo_Parameter := dbParameter |} 0 eq_refl)
    as (secret & Hread & Hval & _ & Hfail & _).
  exists secret. split; [exact Hread|]. split; [exact Hval|].
  exact (Hfail _ eq_refl).
Defined.

(** C8, as the claim states it, fails: asked for version 3 of [/app/db]
    with the selector [/app/db:3], the store answers under the name
    [/app/db], and that is the name of the secret. *)
Lemma ReadSecret_name_counterexample :
  ∃ secret,
    (ReadSecret (scripted existing) "/app/db:3" (fresh 0)).1 = (Some secret, None)
    ∧ sec_Name secret = "/app/db"
    ∧ sec_Name secret ≠ "/app/db:3".
Proof.
  eexists. split; [reflexivity|]. split; [reflexivity|]. discriminate.
Qed.

(** The amended C8 where the store answers under the requested name. *)
Lemma ReadSecret_name_witness :
  ∃ secret,
    (ReadSecret (scripted existing) "/app/db" (fresh 0)).1 = (Some secret, None)
    ∧ sec_Name secret = "/app/db".
Proof.
  destruct (ReadSecret_name (scripted existing) "/app/db" (fresh 0)
              {| gpo_Parameter := dbParameter |} 0 eq_refl)
    as (secret & Hread & _ & Hname).
  exists secret. split; [exact Hread|]. exact (Hname eq_refl).
Defined.

(** * Listing *)

Section ListProtocol.

Context {St : Type} (api : SSMAPI St).

Implicit Types (path : string) (recursive : bool) (pg : Paginator)
  (acc : list SecretMetadata).

Lemma listLoop_unfold fuel pg acc :
  listLoop api fuel pg acc
  = if HasMorePages pg then
      match fuel with
      | O => ret None
      | S fuel' =>
          bind (NextPage api pg) (λ r,
            match r with
            | (inr err, _) => ret (Some ([], Some err))
            | (inl page, pg') =>
                listLoop api fuel' pg' (acc ++ (toMetadata <$> gpp_Parameters page))
            end)
      end
    else ret (Some (acc, None)).
Proof. by destruct fuel. Qed.

(** The loop follows the run of the store page by page. *)
Lemma listLoop_follows path recursive s tok pages out s' :
  pageRun api path recursive s tok pages out s' →
  ∀ fuel pg acc cs,
    params pg = {| gp_Path := Some path; gp_Recursive := Some recursive;
                   gp_WithDecryption := Some false; gp_NextToken := None |} →
    nextToken pg = tok →
    HasMorePages pg = true →
    (fetches pages out ≤ fuel)%nat →
    ∃ reqs,
      listLoop api fuel pg acc {| store := s; calls := cs |}
      = (Some match out with
              | None => (acc ++ (toMetadata <$> concat pages), None)
              | Some err => ([], Some err)
              end,
         {| store := s'; calls := cs ++ (CallGetParametersByPath <$> reqs) |})
      ∧ length reqs = fetches pages out
      ∧ Forall (listRequest path recursive) reqs.
Proof.
  unfold fetches.
  induction 1 as [s tok page next s' Hget Hnext
                 |s tok page t s1 rest out s' Hget Ht Hrun IH
                 |s tok err s' Hget];
    intros fuel pg acc cs Hparams Htok Hmore Hfuel;
    (destruct fuel as [|fuel]; [simpl in Hfuel; lia|]);
    rewrite listLoop_unfold, Hmore;
    unfold bind at 1, NextPage, bind at 1, invoke at 1;
    rewrite Hparams, Htok; simpl; unfold aws.String, aws.Bool in Hget;
    rewrite Hget; simpl.
  - eexists [_]. rewrite listLoop_unfold.
    replace (HasMorePages _) with false
      by (unfold HasMorePages; simpl; by destruct Hnext as [->| ->]).
    unfold ret. rewrite app_nil_r.
    split; [reflexivity|]. split; [reflexivity|].
    by repeat constructor.
  - edestruct (IH fuel
                 {| params := {| gp_Path := Some path; gp_Recursive := Some recursive;
                                 gp_WithDecryption := Some false;
                                 gp_NextToken := None |};
                    nextToken := Some t; firstPage := false |}
                 (acc ++ (toMetadata <$> page))
                 (cs ++ [CallGetParametersByPath
                           {| gp_Path := Some path; gp_Recursive := Some recursive;
                              gp_WithDecryption := Some false;
                              gp_NextToken := tok |}]))
      as (reqs & Hloop & Hlen & Hall); [done|done| |simpl in Hfuel; lia|].
    { unfold HasMorePages; simpl. by destruct (String.eqb_spec t ""). }
    eexists (_ :: reqs). rewrite Hloop. simpl.
    split.
    { f_equal.
      - f_equal. destruct out; [done|]. by rewrite fmap_app, app_assoc.
      - f_equal. by rewrite <-app_assoc. }
    split; [by rewrite Hlen|].
    constructor; [done|exact Hall].
  - eexists [_]. unfold ret.
    split; [reflexivity|]. split; [reflexivity|]. by repeat constructor.
Qed.

(** C5: when the store hands out the pages [pages] and then stops,
    [ListSecrets] (given fuel for that many fetches) returns the entries
    of all items of all pages, in the order of the store, as many as
    there are items, after one request per page, each with decryption
    off; when a fetch fails after some pages, it returns the error of
    that fetch and no entry at all. *)
Theorem ListSecrets_all_pages path recursive s pages out s' fuel cs :
  pageRun api path recursive s None pages out s' →
  (fetches pages out ≤ fuel)%nat →
  ∃ reqs,
    ListSecrets api fuel path recursive {| store := s; calls := cs |}
    = (Some match out with
            | None => (toMetadata <$> concat pages, None)
            | Some err => ([], Some err)
            end,
       {| store := s'; calls := cs ++ (CallGetParametersByPath <$> reqs) |})
    ∧ length reqs = fetches pages out
    ∧ Forall (listRequest path recursive) reqs
    ∧ length (toMetadata <$> concat pages) = length (concat pages).
Proof.
  intros Hrun Hfuel. unfold ListSecrets.
  destruct (listLoop_follows _ _ _ _ _ _ _ Hrun fuel
              (NewGetParametersByPathPaginator
                 {| gp_Path := aws.String path; gp_Recursive := aws.Bool recursive;
                    gp_WithDecryption := aws.Bool false; gp_NextToken := None |})
              [] cs eq_refl eq_refl eq_refl Hfuel)
    as (reqs & Hloop & Hlen & Hall).
  exists reqs. rewrite Hloop.
  split; [done|]. split; [done|]. split; [done|]. apply length_fmap.
Qed.

End ListProtocol.

Lemma existing_pages :
  pageRun (scripted existing) "/app" true 0 None
    [[apiParameter; dbParameter]; [apiParameter]] None 0.
Proof.
  eapply run_more; [reflexivity | discriminate |].
  eapply run_last; [reflexivity | by left].
Defined.

Lemma absent_pages :
  pageRun (scripted absent) "/app" true 0 None
    [[apiParameter]] (Some (ErrorString "ThrottlingException")) 0.
Proof.
  eapply run_more; [reflexivity | discriminate |].
  eapply run_fail. reflexivity.
Defined.

(** C5 on a listing of three items over two pages, and on a listing whose
    second page fails. *)
Lemma ListSecrets_all_pages_witness :
  (ListSecrets (scripted existing) 2 "/app" true (fresh 0)).1
  = Some (toMetadata <$> [apiParameter; dbParameter; apiParameter], None)
  ∧ (ListSecrets (scripted absent) 2 "/app" true (fresh 0)).1
    = Some ([], Some (ErrorString "ThrottlingException")).
Proof.
  destruct (ListSecrets_all_pages (scripted existing) "/app" true 0 _ _ 0 2 []
              existing_pages) as (reqs & Hok & _); [vm_compute; lia|].
  destruct (ListSecrets_all_pages (scripted absent) "/app" true 0 _ _ 0 2 []
              absent_pages) as (reqs' & Hfail & _); [vm_compute; lia|].
  unfold fresh. by rewrite Hok, Hfail.
Defined.

(** * More on path resolution *)

Section PrefixSlashes.

Implicit Types (input prefix env p s t : string).

Lemma append_cons c s t : String c s +:+ t = String c (s +:+ t).
Proof. reflexivity. Qed.

Lemma append_assoc s t u : (s +:+ t) +:+ u = s +:+ t +:+ u.
Proof.
  induction s as [|c s IH]; [done|]. by rewrite !append_cons, IH.
Qed.

Lemma TrimRight_snoc_slash s : strings.TrimRight (s +:+ "/") "/" = strings.TrimRight s "/".
Proof.
  induction s as [|c s IH]; [done|].
  change (String c s +:+ "/") with (String c (s +:+ "/")).
  simpl. by rewrite IH.
Qed.

Lemma TrimLeft_snoc_slash s :
  strings.TrimLeft (s +:+ "/") "/"
  = if String.eqb (strings.TrimLeft s "/") "" then ""
    else strings.TrimLeft s "/" +:+ "/".
Proof.
  induction s as [|c s IH]; [done|].
  change (String c s +:+ "/") with (String c (s +:+ "/")).
  simpl. destruct (Ascii.eqb c "/"); [exact IH|done].
Qed.

Lemma Trim_snoc_slash s : strings.Trim (s +:+ "/") "/" = strings.Trim s "/".
Proof.
  unfold strings.Trim. rewrite TrimLeft_snoc_slash.
  destruct (String.eqb_spec (strings.TrimLeft s "/") "") as [->|_]; [done|].
  apply TrimRight_snoc_slash.
Qed.

Lemma Trim_cons_slash s : strings.Trim ("/" +:+ s) "/" = strings.Trim s "/".
Proof. reflexivity. Qed.

(** A slash before and a slash after a non-empty prefix change nothing:
    [/infra/saas/], [infra/saas] and [/infra/saas] resolve alike. *)
Theorem resolve_prefix_slashes input p env :
  p ≠ "" →
  resolve input ("/" +:+ p +:+ "/") env = resolve input p env.
Proof.
  intros Hp. unfold resolve, buildPath. cbn [Prefix Env].
  rewrite Trim_cons_slash, Trim_snoc_slash.
  change ("/" +:+ p +:+ "/") with (String "/" (p +:+ "/")).
  by destruct (String.eqb_spec p "").
Qed.

(** A non-empty prefix made of slashes only is not dropped: it leaves an
    empty first segment, so the path of a relative input starts with two
    slashes. *)
Theorem resolve_slash_only_prefix input prefix env :
  strings.HasPrefix input "/" = false →
  prefix ≠ "" →
  strings.Trim prefix "/" = "" →
  resolve input prefix env
  = "//" +:+ (if String.eqb env "" then input else env +:+ "/" +:+ input).
Proof.
  intros Hrel Hp Htrim. unfold resolve, buildPath. cbn [Prefix Env].
  rewrite Hrel, Htrim.
  destruct (String.eqb_spec prefix "") as [?|_]; [done|].
  by destruct (String.eqb_spec env "").
Qed.

(** Whatever the configuration, the built path is absolute and ends with
    the input as it was given. *)
Theorem buildPath_absolute_suffix cfg input :
  strings.HasPrefix (buildPath cfg input) "/" = true
  ∧ ∃ front, buildPath cfg input = front +:+ input.
Proof.
  split.
  - unfold buildPath. by destruct (strings.HasPrefix input "/") eqn:Habs.
  - unfold buildPath. destruct (strings.HasPrefix input "/").
    + by exists "".
    + destruct (negb (String.eqb (Prefix cfg) "")), (negb (String.eqb (Env cfg) ""));
        simpl.
      * exists ("/" +:+ strings.Trim (Prefix cfg) "/" +:+ "/" +:+ Env cfg +:+ "/").
        by rewrite !append_assoc.
      * exists ("/" +:+ strings.Trim (Prefix cfg) "/" +:+ "/").
        by rewrite !append_assoc.
      * exists ("/" +:+ Env cfg +:+ "/"). by rewrite !append_assoc.
      * by exists "/".
Qed.

End PrefixSlashes.

Lemma resolve_prefix_slashes_witness :
  resolve "x/y" "/infra/saas/" "prod" = resolve "x/y" "infra/saas" "prod".
Proof. apply (resolve_prefix_slashes "x/y" "infra/saas" "prod"). discriminate. Defined.

Lemma resolve_slash_only_prefix_witness :
  resolve "k" "//" "prod" = "//prod/k".
Proof.
  apply (resolve_slash_only_prefix "k" "//" "prod");
    [reflexivity | discriminate | reflexivity].
Defined.

(** * The name column of the table *)

Section DisplayName.

Implicit Types (basePath name rest s t : string).

Lemma HasPrefix_app s t : strings.HasPrefix (s +:+ t) s = true.
Proof.
  induction s as [|c s IH]; [done|].
  rewrite append_cons. simpl. by rewrite Ascii.eqb_refl.
Qed.

Lemma sliceFrom_app s t : sliceFrom (String.length s) (s +:+ t) = t.
Proof. induction s as [|c s IH]; [done|]. by rewrite append_cons. Qed.

Lemma TrimPrefix_app s t : TrimPrefix (s +:+ t) s = t.
Proof. unfold TrimPrefix. by rewrite HasPrefix_app, sliceFrom_app. Qed.

(** When a path other than [/] is listed: a secret below it is shown by
    the rest of its name, the secret at the path itself by its full
    name, and a name that only shares the first characters of the path
    loses them all the same; a name that does not start with the path
    is shown in full. *)
Theorem displayName_relative basePath :
  basePath ≠ "/" →
  (∀ rest, displayName basePath (basePath +:+ "/" +:+ rest) = rest)
  ∧ displayName basePath basePath = basePath
  ∧ (∀ rest, rest ≠ "" → strings.HasPrefix rest "/" = false →
       displayName basePath (basePath +:+ rest) = rest)
  ∧ (∀ name, strings.HasPrefix name basePath = false →
       displayName basePath name = name).
Proof.
  intros Hbase. unfold displayName.
  destruct (String.eqb_spec basePath "/") as [?|_]; [done|]. simpl.
  split; [|split; [|split]].
  - intros rest. rewrite HasPrefix_app, TrimPrefix_app. reflexivity.
  - pose proof (HasPrefix_app basePath "") as Hp.
    pose proof (TrimPrefix_app basePath "") as Ht.
    assert (Hnil : basePath +:+ "" = basePath).
    { clear. induction basePath as [|c s IH]; [done|].
      by rewrite append_cons, IH. }
    rewrite Hnil in Hp, Ht. by rewrite Hp, Ht.
  - intros rest Hne Hrel. rewrite HasPrefix_app, TrimPrefix_app, Hrel.
    by destruct (String.eqb_spec rest "").
  - intros name Hnot. by rewrite Hnot.
Qed.

End DisplayName.

Lemma displayName_relative_witness :
  displayName "/app" "/app/db" = "db"
  ∧ displayName "/app" "/application" = "lication"
  ∧ displayName "/app" "/other/db" = "/other/db".
Proof.
  destruct (displayName_relative "/app") as (Hbelow & _ & Hshare & Hother);
    [discriminate|].
  split; [exact (Hbelow "db")|].
  split; [apply (Hshare "lication"); [discriminate|reflexivity]|].
  apply Hother. reflexivity.
Defined.

(** * The configuration flags *)

(** When [--output] is not given, the flag keeps its default [text],
    which is not empty and so replaces the loaded value: the output format
    of the configuration file or of the environment is never used.  The
    key, which has no flag, is kept. *)
Theorem initConfig_output_default loaded prefix env region :
  let flags := {| flagPrefix := prefix; flagEnv := env;
                  flagOutput := flagOutput defaultRootFlags;
                  flagRegion := region |} in
  Output (initConfig loaded flags) = "text"
  ∧ KMSKey (initConfig loaded flags) = KMSKey loaded.
Proof.
  unfold initConfig. simpl.
  by destruct (negb (String.eqb prefix "")), (negb (String.eqb env "")),
       (negb (String.eqb region "")).
Qed.

(** A flag that is given wins over the loaded configuration, a flag that
    is empty leaves it alone. *)
Theorem initConfig_precedence loaded flags :
  let pick flag value := if String.eqb flag "" then value else flag in
  initConfig loaded flags
  = {| Prefix := pick (flagPrefix flags) (Prefix loaded);
       Env := pick (flagEnv flags) (Env loaded);
       Output := pick (flagOutput flags) (Output loaded);
       KMSKey := KMSKey loaded;
       Region := pick (flagRegion flags) (Region loaded) |}.
Proof.
  unfold initConfig. destruct loaded as [p e o k r]. simpl.
  by destruct (String.eqb (flagPrefix flags) ""), (String.eqb (flagEnv flags) ""),
       (String.eqb (flagOutput flags) ""), (String.eqb (flagRegion flags) "").
Qed.

(** * Tag flags and the value read from standard input *)

Section TagFlags.

Implicit Types (s k v tag : string) (c : ascii) (m : gmap string string).

Lemma SplitN2_without s c :
  containsByte s c = false → strings.SplitN2 s c = [s].
Proof.
  induction s as [|d s IH]; [done|]. simpl.
  destruct (Ascii.eqb d c); [done|]. intros H. by rewrite (IH H).
Qed.

Lemma SplitN2_cut k v c :
  containsByte k c = false → strings.SplitN2 (k +:+ String c v) c = [k; v].
Proof.
  induction k as [|d k IH]; simpl.
  - by rewrite Ascii.eqb_refl.
  - rewrite ?append_cons. simpl. destruct (Ascii.eqb d c); [done|].
    intros H. by rewrite (IH H).
Qed.

Lemma SplitN2_with s c :
  containsByte s c = true → ∃ k v, strings.SplitN2 s c = [k; v].
Proof.
  induction s as [|d s IH]; [done|]. simpl.
  destruct (Ascii.eqb d c); [by eexists _, _|].
  intros H. destruct (IH H) as (k & v & ->). by eexists _, _.
Qed.

(** The message of [runWrite] for a tag flag without an equals sign. *)
Lemma parseTags_malformed good bad rest m :
  Forall (λ tag, containsByte tag "=" = true) good →
  containsByte bad "=" = false →
  parseTags (good ++ bad :: rest) m
  = inr (ErrorString ("invalid tag format: " +:+ bad +:+ " (expected key=value)")).
Proof.
  intros Hgood Hbad. revert m.
  induction Hgood as [|tag good Htag _ IH]; intros m; simpl.
  - by rewrite (SplitN2_without _ _ Hbad).
  - destruct (SplitN2_with _ _ Htag) as (k & v & ->). apply IH.
Qed.

(** The tag flags parse exactly when each of them has an equals sign. *)
Theorem parseTags_ok_iff (tagFlags : list string) m :
  (∃ tags, parseTags tagFlags m = inl tags)
  ↔ Forall (λ tag, containsByte tag "=" = true) tagFlags.
Proof.
  revert m. induction tagFlags as [|tag tagFlags IH]; intros m; simpl.
  - split; [constructor|by eexists].
  - destruct (containsByte tag "=") eqn:Htag.
    + destruct (SplitN2_with _ _ Htag) as (k & v & ->).
      rewrite IH. split; [by constructor|by inversion 1].
    + rewrite (SplitN2_without _ _ Htag).
      split; [by intros [? [=]]|]. inversion 1; congruence.
Qed.

(** A tag flag is cut at its first equals sign: the key is what comes
    before it, the value all that follows, further equals signs included,
    and it replaces an earlier tag with the same key. *)
Theorem parseTags_first_equals k v (rest : list string) m :
  containsByte k "=" = false →
  parseTags ((k +:+ "=" +:+ v) :: rest) m = parseTags rest (<[k := v]> m).
Proof.
  intros Hk. simpl.
  change (k +:+ "=" +:+ v) with (k +:+ String "=" v).
  by rewrite (SplitN2_cut _ _ _ Hk).
Qed.

End TagFlags.

Section WriteCommand.

Context {St : Type} (api : SSMAPI St).

(** A tag flag without an equals sign stops [runWrite] with the message
    that names it, after the value has been read and before any call to
    the store. *)
Theorem runWrite_malformed_tag cfg os flags arg (w : World St) value good bad rest :
  valueSource os flags = inl value →
  value ≠ "" →
  writeTags flags = good ++ bad :: rest →
  Forall (λ tag, containsByte tag "=" = true) good →
  containsByte bad "=" = false →
  runWrite api cfg os flags arg w
  = (Some (ErrorString ("invalid tag format: " +:+ bad +:+ " (expected key=value)")),
     w).
Proof.
  intros Hv Hne Htags Hgood Hbad. unfold runWrite. rewrite Hv.
  destruct (String.eqb_spec value "") as [?|_]; [done|].
  by rewrite Htags, (parseTags_malformed _ _ _ _ Hgood Hbad).
Qed.

End WriteCommand.

Section Stdin.

Implicit Types (buf line rest s : string) (lines : list string).

Lemma ReadString_parts buf line rest err :
  ReadString buf newline = (line, rest, err) →
  line +:+ rest = buf
  ∧ (err = true → rest = "")
  ∧ (err = false → String.length rest < String.length buf).
Proof.
  revert line rest err. induction buf as [|c buf IH]; intros line rest err; simpl.
  - intros [= <- <- <-]. by repeat split.
  - destruct (Ascii.eqb c newline).
    + intros [= <- <- <-]. repeat split; [done|]. intros _. simpl. lia.
    + destruct (ReadString buf newline) as [[line' rest'] err'].
      intros [= <- <- <-].
      destruct (IH _ _ _ eq_refl) as (Hcat & Heof & Hlen).
      rewrite append_cons, Hcat. repeat split; [done|].
      intros He. specialize (Hlen He). simpl. lia.
Qed.

Lemma Join_snoc lines s :
  strings.Join (lines ++ [s]) "" = strings.Join lines "" +:+ s.
Proof.
  induction lines as [|a lines IH]; [done|].
  destruct lines as [|b lines]; [done|].
  change (strings.Join ((a :: b :: lines) ++ [s]) "")
    with (a +:+ "" +:+ strings.Join ((b :: lines) ++ [s]) "").
  rewrite IH.
  change (strings.Join (a :: b :: lines) "")
    with (a +:+ "" +:+ strings.Join (b :: lines) "").
  by rewrite !append_assoc.
Qed.

Lemma append_empty_r s : s +:+ "" = s.
Proof. induction s as [|c s IH]; [done|]. by rewrite append_cons, IH. Qed.

(** The loop of [readStdin] loses nothing of the input. *)
Lemma readStdinLoop_whole fuel buf lines :
  String.length buf < fuel →
  strings.Join (readStdinLoop fuel buf lines) "" = strings.Join lines "" +:+ buf.
Proof.
  revert buf lines. induction fuel as [|fuel IH]; intros buf lines Hfuel; [lia|].
  simpl. destruct (ReadString buf newline) as [[line rest] err] eqn:Hread.
  destruct (ReadString_parts _ _ _ _ Hread) as (Hcat & Heof & Hlen).
  destruct err.
  - rewrite (Heof eq_refl), append_empty_r in Hcat. subst line.
    destruct (bool_decide (0 < length lines) || negb (String.eqb buf "")) eqn:Hkeep.
    + apply Join_snoc.
    + apply orb_false_iff in Hkeep as [Hnone Hempty].
      apply negb_false_iff, String.eqb_eq in Hempty. subst buf.
      by rewrite append_empty_r.
  - rewrite IH by (specialize (Hlen eq_refl); lia).
    by rewrite Join_snoc, append_assoc, Hcat.
Qed.

Lemma rev_app_snoc s c acc :
  String.rev_app (s +:+ String c "") acc = String c (String.rev_app s acc).
Proof.
  revert acc. induction s as [|a s IH]; intros acc; [done|].
  rewrite append_cons. simpl. apply IH.
Qed.

Lemma substring_front s t :
  String.substring 0 (String.length s) (s +:+ t) = s.
Proof.
  induction s as [|a s IH]; simpl.
  - by destruct t.
  - rewrite ?append_cons. simpl. by rewrite IH.
Qed.

Lemma length_snoc s c : String.length (s +:+ String c "") = S (String.length s).
Proof. induction s as [|a s IH]; [done|]. rewrite append_cons. simpl. by rewrite IH. Qed.

Lemma TrimSuffix_newline s :
  strings.TrimSuffix (s +:+ String newline "") (String newline "") = s.
Proof.
  unfold strings.TrimSuffix, strings.HasSuffix, String.rev.
  rewrite rev_app_snoc. simpl. rewrite length_snoc.
  replace (S (String.length s) - 1) with (String.length s) by lia.
  apply substring_front.
Qed.

(** [readStdin] returns the whole of standard input, never an error, with
    one final newline removed if there is one: lines inside the value are
    kept, and of two final newlines the first stays. *)
Theorem readStdin_whole_input os :
  readStdin os = (strings.TrimSuffix (stdin os) (String newline ""), None)
  ∧ (∀ s, stdin os = s +:+ String newline "" → readStdin os = (s, None))
  ∧ (strings.HasSuffix (stdin os) (String newline "") = false →
     readStdin os = (stdin os, None)).
Proof.
  assert (Hall : readStdin os = (strings.TrimSuffix (stdin os) (String newline ""), None)).
  { unfold readStdin. rewrite readStdinLoop_whole by lia. reflexivity. }
  split; [exact Hall|]. split.
  - intros s Hs. by rewrite Hall, Hs, TrimSuffix_newline.
  - intros Hno. rewrite Hall. unfold strings.TrimSuffix. by rewrite Hno.
Qed.

End Stdin.

Lemma parseTags_first_equals_witness :
  parseTags ["url=postgres://h?a=b"; "url=x"] ∅ = inl {[ "url" := "x" ]}.
Proof.
  rewrite (parseTags_first_equals "url" "postgres://h?a=b" ["url=x"] ∅ eq_refl).
  rewrite (parseTags_first_equals "url" "x" [] _ eq_refl).
  reflexivity.
Defined.

Lemma runWrite_malformed_tag_witness :
  runWrite (scripted absent) DefaultConfig emptyStdin badTagFlags "app/db" (fresh 0)
  = (Some (ErrorString "invalid tag format: team (expected key=value)"), fresh 0).
Proof.
  apply (runWrite_malformed_tag (scripted absent) DefaultConfig emptyStdin
           badTagFlags "app/db" (fresh 0) "v" ["owner=x"] "team" []);
    [reflexivity | discriminate | reflexivity | by repeat constructor | reflexivity].
Defined.

Lemma readStdin_whole_input_witness :
  readStdin twoLines = ("line1" +:+ String newline "line2", None)
  ∧ readStdin emptyStdin = ("", None).
Proof.
  destruct (readStdin_whole_input twoLines) as (_ & Hnl & _).
  destruct (readStdin_whole_input emptyStdin) as (_ & _ & Hno).
  split; [exact (Hnl ("line1" +:+ String newline "line2") eq_refl)|].
  exact (Hno eq_refl).
Defined.

(** * More on the client *)

Section ClientExtras.

Context {St : Type} (api : SSMAPI St).

Implicit Types (path value kmsKey : string) (tags : gmap string string)
  (overwrite : bool) (w : World St).

Lemma WriteSecret_untagged_run path value overwrite kmsKey w :
  let input := setOverwrite (writeInput path value kmsKey) overwrite in
  let r := PutParameter api input (store w) in
  WriteSecret api path value ∅ overwrite kmsKey w
  = (errorOf r.1, logged w (CallPutParameter input) r.2).
Proof.
  unfold WriteSecret. rewrite map_size_empty.
  destruct (decide (0 < 0)); [lia|].
  unfold bind, invoke, ret, logged.
  by destruct (PutParameter api _ (store w)).
Qed.

(** Without tags [WriteSecret] is one write that carries the caller's
    overwrite flag; its error is the result, and no tag-set call is
    made. *)
Theorem WriteSecret_untagged path value overwrite kmsKey w :
  let input := setOverwrite (writeInput path value kmsKey) overwrite in
  let r := PutParameter api input (store w) in
  put_Overwrite input = Some overwrite
  ∧ WriteSecret api path value ∅ overwrite kmsKey w
    = (errorOf r.1, logged w (CallPutParameter input) r.2).
Proof.
  split; [done|]. apply WriteSecret_untagged_run.
Qed.

(** A tagged write that returns no error has ended with the tag-set call,
    after one write or two. *)
Theorem WriteSecret_success_tagged path value tags overwrite kmsKey w :
  tags ≠ ∅ →
  (WriteSecret api path value tags overwrite kmsKey w).1 = None →
  ∃ puts,
    calls (WriteSecret api path value tags overwrite kmsKey w).2
    = calls w ++ (CallPutParameter <$> puts)
              ++ [CallAddTagsToResource (setTagsInput path tags)]
    ∧ (1 ≤ length puts ≤ 2)%nat.
Proof.
  intros Hne. rewrite (WriteSecret_tagged_step api _ _ _ _ _ _ Hne). cbv zeta.
  destruct (PutParameter api (writeInput path value kmsKey) (store w))
    as [[u|err] s1]; simpl.
  - rewrite SetTags_call. simpl. intros _.
    exists [writeInput path value kmsKey]. simpl.
    split; [by rewrite <-app_assoc|lia].
  - destruct (As_ParameterAlreadyExists err && overwrite); [|done].
    destruct (PutParameter api _ s1) as [[u|err2] s2]; simpl; [|done].
    rewrite SetTags_call. simpl. intros _.
    exists [writeInput path value kmsKey;
            setOverwrite (writeInput path value kmsKey) true]. simpl.
    split; [by rewrite <-!app_assoc|lia].
Qed.

(** [WriteSecret] makes at least one call to the store and at most three:
    the write is retried once at most. *)
Theorem WriteSecret_call_bound path value tags overwrite kmsKey w :
  ∃ new,
    calls (WriteSecret api path value tags overwrite kmsKey w).2 = calls w ++ new
    ∧ (1 ≤ length new ≤ 3)%nat.
Proof.
  destruct (decide (tags = ∅)) as [->|Hne].
  - rewrite WriteSecret_untagged_run. cbv zeta.
    eexists [_]. simpl. split; [done|lia].
  - rewrite (WriteSecret_tagged_step api _ _ _ _ _ _ Hne). cbv zeta.
    destruct (PutParameter api (writeInput path value kmsKey) (store w))
      as [[u|err] s1]; simpl.
    + rewrite SetTags_call. simpl. eexists [_; _].
      split; [by rewrite <-app_assoc|simpl; lia].
    + destruct (As_ParameterAlreadyExists err && overwrite).
      * destruct (PutParameter api _ s1) as [[u|err2] s2]; simpl.
        -- rewrite SetTags_call. simpl. eexists [_; _; _].
           split; [by rewrite <-!app_assoc|simpl; lia].
        -- eexists [_; _]. split; [by rewrite <-!app_assoc|simpl; lia].
      * eexists [_]. simpl. split; [done|lia].
Qed.

(** When the value fetch fails, [ReadSecret] returns no secret and that
    error, and does not ask for the tags. *)
Theorem ReadSecret_failure_one_call path w err s1 :
  GetParameter api {| get_Name := Some path; get_WithDecryption := Some true |}
    (store w) = (inr err, s1) →
  ReadSecret api path w
  = ((None, Some err),
     logged w (CallGetParameter {| get_Name := Some path;
                                   get_WithDecryption := Some true |}) s1).
Proof.
  intros Hget. unfold ReadSecret, aws.String, aws.Bool, bind, invoke, logged.
  by rewrite Hget.
Qed.

Lemma foldl_insert_list_to_map (l : list (string * string)) :
  NoDup l.*1 →
  foldl (λ (m : gmap string string) kv, <[kv.1 := kv.2]> m) ∅ l = list_to_map l.
Proof.
  induction l as [|[k v] l IH] using rev_ind; [done|].
  rewrite fmap_app, NoDup_app. intros (Hl & Hnot & _).
  rewrite foldl_app. simpl. rewrite IH by done.
  symmetry. apply list_to_map_snoc.
  intros Hin. apply (Hnot k Hin). simpl. by left.
Qed.

(** The tag list that [SetTags] sends for a map is read back by the loop
    of [ReadSecret] as that same map. *)
Theorem tags_round_trip path tags :
  collectTags (add_Tags (setTagsInput path tags)) = tags.
Proof.
  unfold collectTags, setTagsInput. simpl.
  rewrite <-(list_to_map_to_list tags) at 2.
  rewrite <-(foldl_insert_list_to_map (map_to_list tags))
    by apply NoDup_fst_map_to_list.
  generalize (∅ : gmap string string).
  induction (map_to_list tags) as [|kv l IH]; intros m; [done|].
  simpl. apply IH.
Qed.

End ClientExtras.

Lemma WriteSecret_success_tagged_witness :
  ∃ puts,
    calls (WriteSecret (scripted existing) "/app/db" "v" ownerTags true "" (fresh 0)).2
    = (CallPutParameter <$> puts)
      ++ [CallAddTagsToResource (setTagsInput "/app/db" ownerTags)]
    ∧ (1 ≤ length puts ≤ 2)%nat.
Proof.
  exact (WriteSecret_success_tagged (scripted existing) "/app/db" "v" ownerTags
           true "" (fresh 0) ownerTags_nonempty eq_refl).
Defined.

Lemma ReadSecret_failure_one_call_witness :
  ReadSecret (scripted absent) "/app/db" (fresh 0)
  = ((None, Some (Wrapped "operation error SSM: GetParameter"
                    (ParameterNotFound "Parameter not found."))),
     logged (fresh 0) (CallGetParameter {| get_Name := Some "/app/db";
                                           get_WithDecryption := Some true |}) 0).
Proof.
  exact (ReadSecret_failure_one_call (scripted absent) "/app/db" (fresh 0) _ 0 eq_refl).
Defined.

(** * Listing against any store *)

Section ListAnyStore.

Context {St : Type} (api : SSMAPI St).

Implicit Types (path : string) (recursive : bool) (pg : Paginator)
  (acc : list SecretMetadata) (w : World St).

Lemma toMetadata_blank (p : SSMParameter) :
  meta_Description (toMetadata p) = "" ∧ meta_Tier (toMetadata p) = "".
Proof. unfold toMetadata. by destruct (par_LastModifiedDate p). Qed.

(** One round of the loop of [ListSecrets]. *)
Lemma listLoop_step fuel pg acc w :
  HasMorePages pg = true →
  let req := {| gp_Path := gp_Path (params pg);
                gp_Recursive := gp_Recursive (params pg);
                gp_WithDecryption := gp_WithDecryption (params pg);
                gp_NextToken := nextToken pg |} in
  let r := GetParametersByPath api req (store w) in
  let w1 := logged w (CallGetParametersByPath req) r.2 in
  listLoop api (S fuel) pg acc w
  = match r.1 with
    | inl page =>
        listLoop api fuel
          {| params := params pg; nextToken := NextToken page; firstPage := false |}
          (acc ++ (toMetadata <$> gpp_Parameters page)) w1
    | inr err => (Some ([], Some err), w1)
    end.
Proof.
  intros Hmore. rewrite (listLoop_unfold api), Hmore.
  unfold bind, NextPage, bind, invoke, ret, logged.
  by destruct (GetParametersByPath api _ (store w)) as [[page|err] s1].
Qed.

(** What the loop of [ListSecrets] does against any store at all. *)
Lemma listLoop_any fuel pg acc w :
  ∃ reqs,
    calls (listLoop api fuel pg acc w).2
    = calls w ++ (CallGetParametersByPath <$> reqs)
    ∧ (length reqs ≤ fuel)%nat
    ∧ Forall (λ r, gp_Path r = gp_Path (params pg)
                   ∧ gp_Recursive r = gp_Recursive (params pg)
                   ∧ gp_WithDecryption r = gp_WithDecryption (params pg)) reqs
    ∧ match (listLoop api fuel pg acc w).1 with
      | Some (secrets, Some _) => secrets = []
      | Some (secrets, None) => ∃ items, secrets = acc ++ (toMetadata <$> items)
      | None => True
      end.
Proof.
  revert pg acc w. induction fuel as [|fuel IH]; intros pg acc w;
    destruct (HasMorePages pg) eqn:Hmore.
  - rewrite (listLoop_unfold api), Hmore.
    exists []. simpl. rewrite app_nil_r. by repeat split.
  - rewrite (listLoop_unfold api), Hmore.
    exists []. simpl. rewrite app_nil_r. repeat split; [lia|done|].
    exists []. by rewrite app_nil_r.
  - rewrite (listLoop_step _ _ _ _ Hmore). cbv zeta.
    destruct (GetParametersByPath api _ (store w)) as [[page|err] s1]; simpl.
    + match goal with
      | |- context [listLoop api fuel ?pg' ?acc' ?w'] =>
          destruct (IH pg' acc' w') as (reqs & Hcalls & Hlen & Hall & Hres)
      end.
      simpl in Hcalls, Hall.
      eexists (_ :: reqs). rewrite Hcalls. simpl.
      split; [by rewrite <-app_assoc|]. split; [lia|].
      split; [by constructor|].
      destruct (listLoop api fuel _ _ _).1 as [[secrets [e|]]|]; [done| |done].
      destruct Hres as [items ->]. exists (gpp_Parameters page ++ items).
      by rewrite fmap_app, app_assoc.
    + eexists [_]. simpl. split; [done|]. split; [lia|].
      split; [by repeat constructor|done].
  - rewrite (listLoop_unfold api), Hmore.
    exists []. simpl. rewrite app_nil_r. repeat split; [lia|done|].
    exists []. by rewrite app_nil_r.
Qed.

Lemma ListSecrets_any fuel path recursive w :
  ∃ reqs,
    calls (ListSecrets api fuel path recursive w).2
    = calls w ++ (CallGetParametersByPath <$> reqs)
    ∧ (length reqs ≤ fuel)%nat
    ∧ Forall (listRequest path recursive) reqs
    ∧ match (ListSecrets api fuel path recursive w).1 with
      | Some (secrets, Some _) => secrets = []
      | Some (secrets, None) => ∃ items, secrets = toMetadata <$> items
      | None => True
      end.
Proof.
  unfold ListSecrets.
  match goal with
  | |- context [listLoop api fuel ?pg ?acc w] =>
      destruct (listLoop_any fuel pg acc w) as (reqs & Hcalls & Hlen & Hall & Hres)
  end.
  exists reqs. split; [done|]. split; [done|]. split; [exact Hall|exact Hres].
Qed.

(** Whatever the store answers and however long the listing runs,
    [ListSecrets] only ever sends listing requests for the given path and
    recursion flag with decryption off; a listing that ends in an error
    returns no entry; and no entry carries a description or a tier. *)
Theorem ListSecrets_only_lists fuel path recursive w :
  (∃ reqs,
     calls (ListSecrets api fuel path recursive w).2
     = calls w ++ (CallGetParametersByPath <$> reqs)
     ∧ Forall (listRequest path recursive) reqs)
  ∧ (∀ secrets err,
       (ListSecrets api fuel path recursive w).1 = Some (secrets, Some err) →
       secrets = [])
  ∧ (∀ secrets err,
       (ListSecrets api fuel path recursive w).1 = Some (secrets, err) →
       Forall (λ m, meta_Description m = "" ∧ meta_Tier m = "") secrets).
Proof.
  destruct (ListSecrets_any fuel path recursive w)
    as (reqs & Hcalls & _ & Hall & Hres).
  split; [by exists reqs|]. split.
  - intros secrets err Heq. by rewrite Heq in Hres.
  - intros secrets err Heq. rewrite Heq in Hres. destruct err.
    + subst secrets. constructor.
    + destruct Hres as [items ->]. apply Forall_fmap, Forall_true.
      intros p. apply toMetadata_blank.
Qed.

End ListAnyStore.

(** * The delete, list and read commands *)

Section Commands.

Context {St : Type} (api : SSMAPI St).

Implicit Types (cfg : Config) (os : OS) (term : Terminal) (w : World St)
  (secrets : list SecretMetadata) (shown : list Shown).

(** Without [--force], a declined confirmation ends [runDelete] without an
    error and without any call to the store. *)
Theorem runDelete_declined cfg os term arg w :
  Confirm term = false →
  runDelete api cfg os term false arg w = (None, w).
Proof. intros Hno. unfold runDelete. simpl. by rewrite Hno. Qed.

(** With [--force] or a confirmation, and a client that loads,
    [runDelete] makes exactly one call: the deletion of the resolved path;
    its error comes back wrapped. *)
Theorem runDelete_one_call cfg os term deleteForce arg w :
  deleteForce = true ∨ Confirm term = true →
  LoadDefaultConfig os (Region cfg) = None →
  let input := {| del_Name := Some (buildPath cfg arg) |} in
  let r := DeleteParameter api input (store w) in
  runDelete api cfg os term deleteForce arg w
  = (wrapError "failed to delete secret" (errorOf r.1),
     logged w (CallDeleteParameter input) r.2).
Proof.
  intros Hgo Hload input r.
  assert (Hrun : bind (DeleteSecret api (buildPath cfg arg))
                   (λ err, ret (wrapError "failed to delete secret" err)) w
                 = (wrapError "failed to delete secret" (errorOf r.1),
                    logged w (CallDeleteParameter input) r.2)).
  { subst r. unfold DeleteSecret, bind, invoke, ret, logged, aws.String.
    fold input. by destruct (DeleteParameter api input (store w)). }
  unfold runDelete, NewClient. rewrite Hload.
  destruct deleteForce; simpl; [exact Hrun|].
  destruct Hgo as [?|Hyes]; [done|]. rewrite Hyes. exact Hrun.
Qed.

Lemma findSelected_elem secrets selected :
  selected ∈ (meta_Name <$> secrets) →
  ∃ s, findSelected secrets selected = Some s
       ∧ s ∈ secrets ∧ meta_Name s = selected.
Proof.
  induction secrets as [|s secrets IH]; simpl.
  - by intros ?%elem_of_nil.
  - destruct (String.eqb_spec (meta_Name s) selected) as [Heq|Hne].
    + intros _. exists s. split; [done|]. split; [by left|done].
    + intros [?|Hin]%elem_of_cons; [done|].
      destruct (IH Hin) as (s' & Hfind & Hel & Hname).
      exists s'. split; [done|]. split; [by right|done].
Qed.

(** [runInteractiveList] never returns an error: a cancelled selection
    shows nothing more than the prompt, and the selection of one of the
    offered names shows the details of the first secret with that
    name. *)
Theorem runInteractiveList_result term secrets :
  let options := meta_Name <$> secrets in
  (runInteractiveList term secrets).1 = None
  ∧ (∀ selected err, Select term options = (selected, Some err) →
       runInteractiveList term secrets = (None, [SelectPrompt options]))
  ∧ (∀ selected, Select term options = (selected, None) →
       selected ∈ options →
       ∃ s, s ∈ secrets ∧ meta_Name s = selected
            ∧ findSelected secrets selected = Some s
            ∧ runInteractiveList term secrets
              = (None, [SelectPrompt options; SecretDetails s])).
Proof.
  intros options. unfold runInteractiveList. fold options.
  split; [|split].
  - destruct (Select term options) as [selected [err|]]; [done|].
    by destruct (findSelected secrets selected).
  - intros selected err ->. done.
  - intros selected -> Hin.
    destruct (findSelected_elem _ _ Hin) as (s & Hfind & Hel & Hname).
    exists s. by rewrite Hfind.
Qed.

(** With no argument [runList] ignores the two flags: it lists [/]
    recursively, as if both were set. *)
Theorem runList_no_argument fuel cfg os term listRecursive listInteractive w :
  runList api fuel cfg os term listRecursive listInteractive [] w
  = runList api fuel cfg os term true true [] w
  ∧ (LoadDefaultConfig os (Region cfg) = None →
     (runList api fuel cfg os term listRecursive listInteractive [] w).2
     = (ListSecrets api fuel "/" true w).2).
Proof.
  split; [reflexivity|].
  intros Hload. unfold runList, NewClient. rewrite Hload. simpl.
  unfold bind.
  destruct (ListSecrets api fuel "/" true w) as [[[secrets [err|]]|] w']; simpl;
    [done| |done].
  destruct (bool_decide (length secrets = 0)); [done|].
  destruct (String.eqb (Output cfg) "json"); done.
Qed.

Lemma names_nonempty secrets :
  bool_decide (length secrets = 0) = false → meta_Name <$> secrets ≠ [].
Proof. by destruct secrets. Qed.

(** Whenever [runList] shows the selector, the selector has at least one
    option: an empty listing never opens it. *)
Theorem runList_prompt_has_options fuel cfg os term listRecursive listInteractive
    (args : list string) w err shown options :
  (runList api fuel cfg os term listRecursive listInteractive args w).1
  = Some (err, shown) →
  SelectPrompt options ∈ shown →
  options ≠ [].
Proof.
  unfold runList. destruct (NewClient os (Region cfg)).
  { simpl. intros [= <- <-]. by intros ?%elem_of_nil. }
  unfold bind.
  destruct (ListSecrets api fuel _ _ w) as [[[secrets [e|]]|] w']; simpl.
  - intros [= <- <-]. by intros ?%elem_of_nil.
  - destruct (bool_decide (length secrets = 0)) eqn:Hlen; simpl.
    { intros [= <- <-]. intros [?|?%elem_of_nil]%elem_of_cons; done. }
    destruct (String.eqb (Output cfg) "json"); simpl.
    { intros [= <- <-]. intros [?|?%elem_of_nil]%elem_of_cons; done. }
    pose proof (names_nonempty _ Hlen) as Hne.
    destruct (if bool_decide (length args = 0) then true else listInteractive); simpl.
    + unfold runInteractiveList.
      destruct (Select term _) as [selected [e|]].
      * intros [= <- <-]. intros [[= ->]|?%elem_of_nil]%elem_of_cons; done.
      * destruct (findSelected secrets selected); intros [= <- <-].
        -- intros [[= ->]|[?|?%elem_of_nil]%elem_of_cons]%elem_of_cons; done.
        -- intros [[= ->]|?%elem_of_nil]%elem_of_cons; done.
    + intros [= <- <-]. intros [?|?%elem_of_nil]%elem_of_cons; done.
  - done.
Qed.

(** When every selection is cancelled, [runRead] without argument only
    lists: it never fetches a value or the tags of a secret. *)
Theorem runRead_cancelled fuel cfg os term readQuiet w :
  (∀ options, ∃ selected err, Select term options = (selected, Some err)) →
  ∃ reqs,
    calls (runRead api fuel cfg os term readQuiet [] w).2
    = calls w ++ (CallGetParametersByPath <$> reqs)
    ∧ Forall (listRequest "/" true) reqs
    ∧ ∀ err shown,
        (runRead api fuel cfg os term readQuiet [] w).1 = Some (err, shown) →
        ∀ msg cause, err = Some (Wrapped msg cause) → msg ≠ "failed to read secret".
Proof.
  intros Hcancel. unfold runRead, interactiveSecretSearch.
  destruct (NewClient os (Region cfg)).
  { exists []. simpl. rewrite app_nil_r. split; [done|]. split; [done|].
    intros err shown [= <- <-] msg cause [= <- <-]. discriminate. }
  destruct (ListSecrets_any api fuel "/" true w)
    as (reqs & Hcalls & _ & Hall & _).
  exists reqs. unfold bind.
  destruct (ListSecrets api fuel "/" true w) as [[[secrets [e|]]|] w']; simpl in *.
  - split; [done|]. split; [done|].
    intros err shown [= <- <-] msg cause [= <- <-]. discriminate.
  - destruct (bool_decide (length secrets = 0)); simpl.
    + split; [done|]. split; [done|]. by intros err shown [= <- <-] msg cause.
    + destruct (Hcancel (meta_Name <$> secrets)) as (selected & err & ->). simpl.
      split; [done|]. split; [done|]. by intros ? ? [= <- <-] msg cause.
  - split; [done|]. split; [done|]. done.
Qed.

End Commands.

Lemma runDelete_declined_witness :
  runDelete (scripted existing) DefaultConfig emptyStdin cancels false "app/db"
    (fresh 0)
  = (None, fresh 0).
Proof.
  apply (runDelete_declined (scripted existing)). reflexivity.
Defined.

Lemma runDelete_one_call_witness :
  runDelete (scripted existing) DefaultConfig emptyStdin picksDb false "app/db"
    (fresh 0)
  = (None, logged (fresh 0) (CallDeleteParameter {| del_Name := Some "/app/db" |}) 0).
Proof.
  apply (runDelete_one_call (scripted existing) DefaultConfig emptyStdin picksDb
           false "app/db" (fresh 0)); [by right | reflexivity].
Defined.

Lemma runInteractiveList_result_witness :
  runInteractiveList picksDb (toMetadata <$> [apiParameter; dbParameter])
  = (None,
     [SelectPrompt ["/app/api"; "/app/db"]; SecretDetails (toMetadata dbParameter)]).
Proof.
  destruct (runInteractiveList_result picksDb
              (toMetadata <$> [apiParameter; dbParameter])) as (_ & _ & Hpick).
  destruct (Hpick "/app/db" eq_refl) as (s & _ & _ & Hfind & Hrun).
  { by repeat constructor. }
  rewrite Hrun. by injection Hfind as <-.
Defined.

Lemma runList_no_argument_witness :
  (runList (scripted existing) 2 DefaultConfig emptyStdin cancels false false []
     (fresh 0)).2
  = (ListSecrets (scripted existing) 2 "/" true (fresh 0)).2.
Proof.
  destruct (runList_no_argument (scripted existing) 2 DefaultConfig emptyStdin
              cancels false false (fresh 0)) as [_ Hworld].
  apply Hworld. reflexivity.
Defined.

Lemma runList_prompt_has_options_witness :
  (runList (scripted existing) 2 DefaultConfig emptyStdin cancels false false []
     (fresh 0)).1
  = Some (None, [SelectPrompt ["/app/api"; "/app/db"; "/app/api"]])
  ∧ ["/app/api"; "/app/db"; "/app/api"] ≠ [].
Proof.
  split; [reflexivity|].
  apply (runList_prompt_has_options (scripted existing) 2 DefaultConfig emptyStdin
           cancels false false [] (fresh 0) None
           [SelectPrompt ["/app/api"; "/app/db"; "/app/api"]]);
    [reflexivity | by constructor].
Defined.

Lemma runRead_cancelled_witness :
  ∃ reqs,
    calls (runRead (scripted existing) 2 DefaultConfig emptyStdin cancels false []
             (fresh 0)).2
    = CallGetParametersByPath <$> reqs.
Proof.
  destruct (runRead_cancelled (scripted existing) 2 DefaultConfig emptyStdin
              cancels false (fresh 0)) as (reqs & Hcalls & _).
  { intros options. by exists "", (ErrorString "interrupt"). }
  exists reqs. exact Hcalls.
Defined.

Lemma ListSecrets_only_lists_witness :
  Forall (λ m, meta_Description m = "" ∧ meta_Tier m = "")
    (toMetadata <$> [apiParameter; dbParameter; apiParameter]).
Proof.
  destruct (ListSecrets_only_lists (scripted existing) 2 "/app" true (fresh 0))
    as (_ & _ & Hblank).
  exact (Hblank _ None eq_refl).
Defined.

(** * Where the commands write and read *)

Section ResolvedPath.

Context {St : Type} (api : SSMAPI St).

Implicit Types (cfg : Config) (os : OS) (term : Terminal) (w : World St).

(** Every write that [runWrite] sends is for the resolved path, holds the
    value that was read, is a secure string, and names the configured key
    when there is one; besides writes it sends only tag-set calls. *)
Theorem runWrite_writes_resolved_path cfg os flags arg w value :
  valueSource os flags = inl value →
  ∃ puts tagCalls,
    calls (runWrite api cfg os flags arg w).2
    = calls w ++ (CallPutParameter <$> puts)
              ++ (CallAddTagsToResource <$> tagCalls)
    ∧ ∀ i, i ∈ puts →
        put_Name i = Some (buildPath cfg arg)
        ∧ put_Value i = Some value
        ∧ put_Type i = ParameterTypeSecureString
        ∧ put_KeyId i = (if String.eqb (KMSKey cfg) "" then None
                         else Some (KMSKey cfg))
        ∧ put_Tags i = [].
Proof.
  intros Hv.
  assert (Hnone : ∀ err : option error,
            ∃ puts tagCalls,
              calls (err, w).2
              = calls w ++ (CallPutParameter <$> puts)
                        ++ (CallAddTagsToResource <$> tagCalls)
              ∧ ∀ i, i ∈ puts →
                  put_Name i = Some (buildPath cfg arg)
                  ∧ put_Value i = Some value
                  ∧ put_Type i = ParameterTypeSecureString
                  ∧ put_KeyId i = (if String.eqb (KMSKey cfg) "" then None
                                   else Some (KMSKey cfg))
                  ∧ put_Tags i = []).
  { intros err. exists [], []. simpl. rewrite app_nil_r.
    split; [done|]. by intros i ?%elem_of_nil. }
  unfold runWrite. rewrite Hv.
  destruct (String.eqb value ""); [apply Hnone|].
  destruct (parseTags (writeTags flags) ∅) as [tags|err]; [|apply Hnone].
  destruct (NewClient os (Region cfg)); [apply Hnone|].
  destruct (WriteSecret_calls api (buildPath cfg arg) value tags
              (writeOverwrite flags) (KMSKey cfg) w)
    as (puts & tagCalls & Hcalls & _ & Hall).
  exists puts, tagCalls. unfold bind.
  destruct (WriteSecret api _ _ _ _ _ w) as [[err|] w']; simpl in *;
    (split; [exact Hcalls|]);
    intros i Hi; rewrite Forall_forall in Hall;
    destruct (Hall i Hi) as [ov ->]; simpl;
    by destruct (writeInput_fields (buildPath cfg arg) value (KMSKey cfg))
         as (-> & -> & -> & _ & _ & ->).
Qed.

(** [lockr read --quiet path], when the value fetch succeeds, prints the
    value of the resolved path and nothing else, whatever the output
    format and the tags, and needs no listing. *)
Theorem runRead_quiet fuel cfg os term arg (rest : list string) w out s1 :
  LoadDefaultConfig os (Region cfg) = None →
  GetParameter api {| get_Name := Some (buildPath cfg arg);
                      get_WithDecryption := Some true |} (store w)
  = (inl out, s1) →
  (runRead api fuel cfg os term true (arg :: rest) w).1
  = Some (None, [PrintValue (aws.ToString (par_Value (gpo_Parameter out)))]).
Proof.
  intros Hload Hget. unfold runRead, readAt, NewClient. rewrite Hload.
  unfold bind. rewrite (ReadSecret_found api _ _ _ _ Hget). reflexivity.
Qed.

End ResolvedPath.

Lemma runWrite_writes_resolved_path_witness :
  ∃ puts tagCalls,
    calls (runWrite (scripted existing) teamConfig emptyStdin taggedFlags "app/db"
             (fresh 0)).2
    = (CallPutParameter <$> puts) ++ (CallAddTagsToResource <$> tagCalls)
    ∧ ∀ i, i ∈ puts →
        put_Name i = Some "/infra/prod/app/db" ∧ put_KeyId i = Some "alias/team".
Proof.
  destruct (runWrite_writes_resolved_path (scripted existing) teamConfig
              emptyStdin taggedFlags "app/db" (fresh 0) "v" eq_refl)
    as (puts & tagCalls & Hcalls & Hall).
  exists puts, tagCalls. split; [exact Hcalls|].
  intros i Hi. destruct (Hall i Hi) as (Hname & _ & _ & Hkey & _).
  split; [exact Hname|exact Hkey].
Defined.

Lemma runRead_quiet_witness :
  (runRead (scripted existing) 0 teamConfig emptyStdin cancels true ["app/db"]
     (fresh 0)).1
  = Some (None, [PrintValue "s3cret"]).
Proof.
  exact (runRead_quiet (scripted existing) 0 teamConfig emptyStdin cancels
           "app/db" [] (fresh 0) {| gpo_Parameter := dbParameter |} 0
           eq_refl eq_refl).
Defined.
